(** * AI news notifier: fetch, categorize, merge, persist, notify

    A shallow embedding of the pipeline of [src/news_fetcher.py],
    [src/data_storage.py] and [src/notification.py], and the properties of
    it that the specification states.

    Conventions.
    - A Python [str] is a [string]: the bytes of its UTF-8 encoding.  Equality
      and substring search on well-formed UTF-8 agree with equality and
      substring search on code points.
    - A naive [datetime] is the integer [Z] of its microsecond ordinal.  The
      ISO-8601 text that the database stores for it is compared as text by
      SQLite; on naive datetimes this is the order of the ordinals, so the
      column holds the ordinal as well.
    - A Python [int] is a [Z]; a counter that only counts up is a [nat].
    - A dict with fixed literal keys is a record; a dict used as a map is a
      [gmap]; a [set] of strings is a [gset string]. *)

From Stdlib Require Import Ascii String.
From stdpp Require Import base option list sorting gmap strings pretty.

Open Scope string_scope.
Open Scope list_scope.

(** ** Strings *)

Module Str.

(** [p] is a prefix of [s]. *)
Fixpoint starts_with (p s : string) : bool :=
  match p, s with
  | EmptyString, _ => true
  | String a p', String b s' => bool_decide (a = b) && starts_with p' s'
  | String _ _, EmptyString => false
  end.

(** Python's [needle in hay] on strings. *)
Fixpoint contains (needle hay : string) : bool :=
  starts_with needle hay ||
  match hay with
  | EmptyString => false
  | String _ hay' => contains needle hay'
  end.

(** [str.lower()] restricted to the ASCII letters; every other byte is kept. *)
Definition lower_ascii (c : ascii) : ascii :=
  let n := nat_of_ascii c in
  if (65 <=? n)%nat && (n <=? 90)%nat then ascii_of_nat (n + 32) else c.

Fixpoint lower_ascii_string (s : string) : string :=
  match s with
  | EmptyString => EmptyString
  | String c s' => String (lower_ascii c) (lower_ascii_string s')
  end.

(** [s.replace(c, "")] for a one-character [c]. *)
Fixpoint remove_char (c : ascii) (s : string) : string :=
  match s with
  | EmptyString => EmptyString
  | String a s' =>
      if bool_decide (a = c) then remove_char c s' else String a (remove_char c s')
  end.

End Str.

(** ** The news item (class [NewsItem]) *)

Record NewsItem := mkNewsItem {
  id : string;
  title : string;
  link : string;
  source : string;
  published_time : Z;
  category : string;
  is_read : bool
}.

Global Instance NewsItem_eq_dec : EqDecision NewsItem.
Proof. solve_decision. Defined.

(** ** Categorization ([NewsFetcher._categorize_by_keywords]) *)

Definition ai_keywords : list string :=
  [ "人工智能"; "AI"; "机器学习"; "深度学习"; "神经网络"; "自然语言处理";
    "NLP"; "计算机视觉"; "语音识别"; "强化学习"; "大语言模型"; "LLM";
    "GPT"; "BERT"; "transformer"; "diffusion"; "生成式AI"; "生成式人工智能" ].

Definition tech_keywords : list string :=
  [ "科技"; "技术"; "创新"; "数字化"; "量子计算"; "区块链"; "元宇宙";
    "VR"; "AR"; "XR"; "机器人"; "自动驾驶"; "物联网"; "IoT"; "5G"; "6G";
    "半导体"; "芯片"; "云计算"; "边缘计算" ].

Section Categorize.
(** [str.lower] is the interpreter's Unicode case mapping. *)
Variable lower : string → string.

(** One [for keyword in keywords: if keyword.lower() in title_lower] scan:
    [true] when the loop body returns. *)
Fixpoint scan_keywords (keywords : list string) (title_lower : string) : bool :=
  match keywords with
  | [] => false
  | keyword :: rest =>
      if Str.contains (lower keyword) title_lower then true
      else scan_keywords rest title_lower
  end.

Definition _categorize_by_keywords (title : string) : string :=
  let title_lower := lower title in
  if scan_keywords ai_keywords title_lower then "AI"
  else if scan_keywords tech_keywords title_lower then "科技"
  else "AI/科技".

(** Some keyword of [keywords] occurs in [title], both lower-cased. *)
Definition mentions (keywords : list string) (title : string) : Prop :=
  ∃ keyword, keyword ∈ keywords ∧
    ∃ pre post, lower title = pre +:+ lower keyword +:+ post.
End Categorize.


(** ** Sources ([NewsFetcher.fetch_from_newsapi], [NewsFetcher.fetch_from_rss]) *)

(** One element of [mock_response["articles"]]. *)
Record article := mkArticle {
  source_id : string;
  source_name : string;
  art_title : string;
  url : string;
  publishedAt : string
}.

(** One element of [self.rss_feeds]. *)
Record feed_info := mkFeed {
  feed_name : string;
  feed_url : string;
  feed_category : string
}.

(** One element of [mock_entries]. *)
Record entry := mkEntry {
  entry_title : string;
  entry_link : string;
  published : string
}.

Definition mock_articles : list article :=
  [ mkArticle "techcrunch" "TechCrunch" "最新GPT-5模型展示惊人的推理能力"
      "https://techcrunch.com/2025/05/24/gpt-5-reasoning/" "2025-05-24T15:30:00Z";
    mkArticle "wired" "Wired" "量子计算突破：首个实用级容错量子处理器问世"
      "https://www.wired.com/2025/05/quantum-computing-breakthrough/" "2025-05-24T12:15:00Z";
    mkArticle "theverge" "The Verge" "新型脑机接口技术允许完全瘫痪患者控制机器人手臂"
      "https://www.theverge.com/2025/5/23/brain-computer-interface" "2025-05-23T18:45:00Z" ].

Definition rss_feeds : list feed_info :=
  [ mkFeed "MIT Technology Review" "https://www.technologyreview.com/feed/" "科技";
    mkFeed "Wired" "https://www.wired.com/feed/rss" "科技";
    mkFeed "AI News" "https://artificialintelligence-news.com/feed/" "AI";
    mkFeed "VentureBeat AI" "https://venturebeat.com/category/ai/feed/" "AI" ].

(** The [if]/[elif]/[else] on [feed_info["name"]] that stands for reading the
    feed. *)
Definition mock_entries (feed : feed_info) : list entry :=
  if bool_decide (feed_name feed = "MIT Technology Review") then
    [ mkEntry "新型神经形态芯片模拟人脑突触连接"
        "https://www.technologyreview.com/2025/05/24/neuromorphic-chip/"
        "Sat, 24 May 2025 10:30:00 GMT";
      mkEntry "AI辅助药物发现平台缩短新药研发周期"
        "https://www.technologyreview.com/2025/05/23/ai-drug-discovery/"
        "Fri, 23 May 2025 14:15:00 GMT" ]
  else if bool_decide (feed_name feed = "AI News") then
    [ mkEntry "多模态AI系统实现跨领域知识迁移"
        "https://artificialintelligence-news.com/2025/05/24/multimodal-ai/"
        "Sat, 24 May 2025 09:45:00 GMT";
      mkEntry "自监督学习突破：AI模型仅需少量标注数据即可达到SOTA"
        "https://artificialintelligence-news.com/2025/05/22/self-supervised-learning/"
        "Thu, 22 May 2025 16:20:00 GMT" ]
  else [].

(** ** Merging ([NewsFetcher.fetch_all_news], from the sort on) *)

Section Sort.
Context {A : Type} (key : A → Z).

(** [x] goes before the first element whose key is not above its own. *)
Fixpoint insert_desc (x : A) (l : list A) : list A :=
  match l with
  | [] => [x]
  | y :: l' =>
      if (key y <=? key x)%Z then x :: y :: l' else y :: insert_desc x l'
  end.

(** [l.sort(key=key, reverse=True)]: the stable sort, largest key first;
    elements of equal key keep the order they have in [l]. *)
Definition sort_desc (l : list A) : list A := foldr insert_desc [] l.
End Sort.

(** The body of the loop over [all_news]; the state is
    [(unique_titles, unique_news)]. *)
Definition dedup_step (st : gset string * list NewsItem) (item : NewsItem)
    : gset string * list NewsItem :=
  let '(unique_titles, unique_news) := st in
  if bool_decide (title item ∉ unique_titles)
  then ({[ title item ]} ∪ unique_titles, unique_news ++ [item])
  else st.

Definition dedup_by_title (all_news : list NewsItem) : list NewsItem :=
  (foldl dedup_step (∅, []) all_news).2.

Definition merge_and_dedup (all_news : list NewsItem) : list NewsItem :=
  dedup_by_title (sort_desc published_time all_news).

(** What the specification says of the second pass: an item is kept exactly
    when no item before it has its title. *)
Definition first_occurrences_after (pre l : list NewsItem) : list NewsItem :=
  mjoin (imap (λ i x,
    if bool_decide (title x ∈ title <$> pre ++ take i l) then [] else [x]) l).

Definition first_occurrences (l : list NewsItem) : list NewsItem :=
  first_occurrences_after [] l.

Section Fetch.
(** What the interpreter and the clock supply: [str.lower], [hash] on
    strings (fixed within one process), [datetime.fromisoformat] and
    [datetime.strptime(_, "%a, %d %b %Y %H:%M:%S GMT")] ([None] for
    [ValueError]), and the two clock readings [int(time.time())] and
    [datetime.now()] at the moment the [tick]-th item of the process is
    built. *)
Variable lower : string → string.
Variable hash : string → Z.
Variable fromisoformat : string → option Z.
Variable strptime_gmt : string → option Z.
Variable time_s : nat → Z.
Variable now : nat → Z.

(** [NewsItem.__init__], at clock reading [t]. *)
Definition NewsItem_init (t : Z) (title link source : string)
    (published_time : Z) (category : string) (is_read : bool) : NewsItem :=
  {| id := source +:+ "_" +:+ pretty t +:+ "_" +:+ pretty (hash title `mod` 10000)%Z;
     title := title; link := link; source := source;
     published_time := published_time; category := category;
     is_read := is_read |}.

(** The loop over the articles inside the [try]: [None] when an article
    raises.  The second component counts the items built so far. *)
Fixpoint newsapi_loop (articles : list article) (news_items : list NewsItem)
    (tick : nat) : option (list NewsItem) * nat :=
  match articles with
  | [] => (Some news_items, tick)
  | a :: rest =>
      match fromisoformat (Str.remove_char "Z" (publishedAt a)) with
      | None => (None, tick)
      | Some dt =>
          newsapi_loop rest
            (news_items ++
               [NewsItem_init (time_s tick) (art_title a) (url a) (source_name a) dt
                  (_categorize_by_keywords lower (art_title a)) false])
            (S tick)
      end
  end.

(** [fetch_from_newsapi] on a given response; [None] is a request that
    raised.  [except Exception: return []]. *)
Definition fetch_from_newsapi_on (response : option (list article)) (tick : nat)
    : list NewsItem * nat :=
  match response with
  | None => ([], tick)
  | Some articles =>
      match newsapi_loop articles [] tick with
      | (Some news_items, tick') => (news_items, tick')
      | (None, tick') => ([], tick')
      end
  end.

Definition fetch_from_newsapi : nat → list NewsItem * nat :=
  fetch_from_newsapi_on (Some mock_articles).

(** The loop over the entries of one feed. *)
Fixpoint entries_loop (feed : feed_info) (entries : list entry)
    (news_items : list NewsItem) (tick : nat) : list NewsItem * nat :=
  match entries with
  | [] => (news_items, tick)
  | e :: rest =>
      let published_time :=
        match strptime_gmt (published e) with
        | Some t => t
        | None => now tick
        end in
      entries_loop feed rest
        (news_items ++
           [NewsItem_init (time_s tick) (entry_title e) (entry_link e)
              (feed_name feed) published_time (feed_category feed) false])
        (S tick)
  end.

(** The loop over the feeds; [read feed = None] is a feed whose reading
    raised, which the [except] inside the loop swallows. *)
Fixpoint feeds_loop (read : feed_info → option (list entry))
    (feeds : list feed_info) (news_items : list NewsItem) (tick : nat)
    : list NewsItem * nat :=
  match feeds with
  | [] => (news_items, tick)
  | feed :: rest =>
      match read feed with
      | None => feeds_loop read rest news_items tick
      | Some entries =>
          let '(news_items', tick') := entries_loop feed entries news_items tick in
          feeds_loop read rest news_items' tick'
      end
  end.

Definition fetch_from_rss_on (read : feed_info → option (list entry))
    (feeds : list feed_info) (tick : nat) : list NewsItem * nat :=
  feeds_loop read feeds [] tick.

Definition fetch_from_rss : nat → list NewsItem * nat :=
  fetch_from_rss_on (λ feed, Some (mock_entries feed)) rss_feeds.

Definition fetch_all_news_on (response : option (list article))
    (read : feed_info → option (list entry)) (feeds : list feed_info)
    (tick : nat) : list NewsItem * nat :=
  let '(from_newsapi, tick1) := fetch_from_newsapi_on response tick in
  let '(from_rss, tick2) := fetch_from_rss_on read feeds tick1 in
  (merge_and_dedup (from_newsapi ++ from_rss), tick2).

Definition fetch_all_news : nat → list NewsItem * nat :=
  fetch_all_news_on (Some mock_articles) (λ feed, Some (mock_entries feed)) rss_feeds.

(** What the specification says of the feeds: each contributes its own
    result, a feed whose reading failed contributes the empty sequence,
    and the results are concatenated in feed order. *)
Definition feed_result (read : feed_info → option (list entry))
    (feed : feed_info) (tick : nat) : list NewsItem * nat :=
  match read feed with
  | None => ([], tick)
  | Some entries => entries_loop feed entries [] tick
  end.

Fixpoint concat_feeds (read : feed_info → option (list entry))
    (feeds : list feed_info) (tick : nat) : list NewsItem * nat :=
  match feeds with
  | [] => ([], tick)
  | feed :: rest =>
      let '(items, tick') := feed_result read feed tick in
      let '(more, tick'') := concat_feeds read rest tick' in
      (items ++ more, tick'')
  end.
End Fetch.

(** ** Setting values and their JSON text *)

(** The key types [json.dumps] accepts in a dict. *)
Inductive pykey :=
  | KStr (s : string)
  | KInt (z : Z)
  | KBool (b : bool)
  | KNone.

Local Unset Elimination Schemes.

Global Instance pykey_eq_dec : EqDecision pykey.
Proof. solve_decision. Defined.

(** The Python values a setting can be given.  [PyObject] stands for a value
    [json.dumps] rejects with [TypeError] (a set, bytes, an instance).  A
    dict is its items in insertion order.  Floats are not modelled. *)
Inductive pyval :=
  | PyNone
  | PyBool (b : bool)
  | PyInt (z : Z)
  | PyStr (s : string)
  | PyList (l : list pyval)
  | PyTuple (l : list pyval)
  | PyDict (d : list (pykey * pyval))
  | PyObject.

(** A JSON document.  The text [json.dumps] writes and [json.loads] reads is
    represented by the document it denotes. *)
Inductive json :=
  | JNull
  | JBool (b : bool)
  | JInt (z : Z)
  | JStr (s : string)
  | JArr (l : list json)
  | JObj (members : list (string * json)).

Local Set Elimination Schemes.

(** The member name [json.dumps] writes for a dict key. *)
Definition key_name (k : pykey) : string :=
  match k with
  | KStr s => s
  | KInt z => pretty z
  | KBool true => "true"
  | KBool false => "false"
  | KNone => "null"
  end.

(** [json.dumps] along a list and along the items of a dict, given
    [json.dumps] on the elements. *)
Definition dumps_all (dumps : pyval → option json) : list pyval → option (list json) :=
  fix go l :=
    match l with
    | [] => Some []
    | x :: l' => j ← dumps x; js ← go l'; Some (j :: js)
    end.

Definition dumps_items (dumps : pyval → option json)
    : list (pykey * pyval) → option (list (string * json)) :=
  fix go d :=
    match d with
    | [] => Some []
    | (k, x) :: d' => j ← dumps x; ms ← go d'; Some ((key_name k, j) :: ms)
    end.

(** [json.dumps]; [None] is [TypeError]. *)
Fixpoint json_dumps (v : pyval) : option json :=
  match v with
  | PyNone => Some JNull
  | PyBool b => Some (JBool b)
  | PyInt z => Some (JInt z)
  | PyStr s => Some (JStr s)
  | PyList l | PyTuple l => JArr <$> dumps_all json_dumps l
  | PyDict d => JObj <$> dumps_items json_dumps d
  | PyObject => None
  end.

(** [d[k] = v] on a dict: an existing key keeps its place. *)
Fixpoint dict_set (k : pykey) (v : pyval) (d : list (pykey * pyval))
    : list (pykey * pyval) :=
  match d with
  | [] => [(k, v)]
  | (k', v') :: d' =>
      if bool_decide (k' = k) then (k, v) :: d' else (k', v') :: dict_set k v d'
  end.

(** [dict(pairs)] as [json.loads] builds an object: a repeated name keeps its
    first place and its last value. *)
Definition dict_of_pairs (pairs : list (pykey * pyval)) : list (pykey * pyval) :=
  foldl (λ d kv, dict_set kv.1 kv.2 d) [] pairs.

(** [json.loads] on a document. *)
Fixpoint json_loads (j : json) : pyval :=
  match j with
  | JNull => PyNone
  | JBool b => PyBool b
  | JInt z => PyInt z
  | JStr s => PyStr s
  | JArr l => PyList (map json_loads l)
  | JObj members =>
      PyDict (dict_of_pairs (map (λ m, (KStr m.1, json_loads m.2)) members))
  end.

(** The values JSON has a shape for: no tuple, no rejected object, and in
    every dict only string keys (a dict holds a key once). *)
Fixpoint json_shaped (v : pyval) : bool :=
  match v with
  | PyNone | PyBool _ | PyInt _ | PyStr _ => true
  | PyList l => forallb json_shaped l
  | PyTuple _ | PyObject => false
  | PyDict d =>
      bool_decide (NoDup d.*1) &&
      forallb (λ kv, match kv.1 with KStr _ => json_shaped kv.2 | _ => false end) d
  end.

(** ** Storage ([DataStorage]) *)

(** A row of [news_items]: [published_time] is the ISO text, [is_read] the
    integer column. *)
Record Row := mkRow {
  row_id : string;
  row_title : string;
  row_link : string;
  row_source : string;
  row_published_time : Z;
  row_category : string;
  row_is_read : Z
}.

Global Instance Row_eq_dec : EqDecision Row.
Proof. solve_decision. Defined.

(** The text of a [settings.value] cell: a JSON document, or text that
    [json.loads] rejects. *)
Inductive text :=
  | Json (doc : json)
  | NotJson.

(** The database file: [news_items] in rowid order, [settings] by its
    primary key. *)
Record database := mkDatabase {
  news_items : list Row;
  settings : gmap string text
}.

(** How the file behaves during one call: [Ready], every statement runs
    (short of a constraint violation); [Failing], [sqlite3.connect] returns
    and every statement raises; [Unopenable], [sqlite3.connect] raises. *)
Inductive db_env := Ready | Failing | Unopenable.

Global Instance db_env_eq_dec : EqDecision db_env.
Proof. solve_decision. Defined.

Inductive exn := UnboundLocalError.

(** How a call ends for its caller. *)
Inductive outcome (A : Type) :=
  | Return (a : A)
  | Raise (e : exn).
Global Arguments Return {A} a.
Global Arguments Raise {A} e.

(** Each method has the shape
    [try: conn = sqlite3.connect(..); body  except Exception: return degraded
     finally: if conn: conn.close()].
    When [connect] raises, [conn] is unbound in the [finally] clause, whose
    [UnboundLocalError] replaces the pending [return]. *)
Definition guarded {A} (env : db_env) (degraded : A) (body : outcome A) : outcome A :=
  match env with
  | Ready => body
  | Failing => Return degraded
  | Unopenable => Raise UnboundLocalError
  end.

Definition row_of_item (item : NewsItem) : Row :=
  {| row_id := id item; row_title := title item; row_link := link item;
     row_source := source item; row_published_time := published_time item;
     row_category := category item;
     row_is_read := if is_read item then 1%Z else 0%Z |}.

Definition item_of_row (row : Row) : NewsItem :=
  {| id := row_id row; title := row_title row; link := row_link row;
     source := row_source row; published_time := row_published_time row;
     category := row_category row;
     is_read := bool_decide (row_is_read row ≠ 0%Z) |}.

(** [INSERT INTO news_items]: [None] is the [IntegrityError] of the primary
    key [id]. *)
Definition insert_row (rows : list Row) (r : Row) : option (list Row) :=
  if bool_decide (row_id r ∈ row_id <$> rows) then None else Some (rows ++ [r]).

(** The body of the loop of [save_news_items]; the state is the table as the
    open connection sees it and [saved_count]. *)
Definition save_step (st : list Row * nat) (item : NewsItem) : list Row * nat :=
  let '(rows, saved_count) := st in
  if bool_decide (title item ∈ row_title <$> rows) then st
  else match insert_row rows (row_of_item item) with
       | Some rows' => (rows', S saved_count)
       | None => st
       end.

Definition save_news_items (env : db_env) (db : database) (items : list NewsItem)
    : outcome nat * database :=
  match items with
  | [] => (Return 0, db)
  | _ =>
      match env with
      | Ready =>
          let '(rows, saved_count) := foldl save_step (news_items db, 0) items in
          (Return saved_count, {| news_items := rows; settings := settings db |})
      | Failing => (Return 0, db)
      | Unopenable => (Raise UnboundLocalError, db)
      end
  end.

(** The rows a call of [save_news_items] added to [db]. *)
Definition inserted_rows (db : database) (items : list NewsItem) : list Row :=
  drop (length (news_items db)) (news_items (save_news_items Ready db items).2).

(** "Only the first occurrence of a title is inserted": the rows added are
    those of the items whose title is neither stored nor earlier in the
    batch. *)
Definition inserts_first_occurrences (db : database) (items : list NewsItem) : Prop :=
  inserted_rows db items =
    row_of_item <$> first_occurrences_after (item_of_row <$> news_items db) items.

(** No [INSERT] of the batch can hit the primary key: an item with a new
    title has a new id, and items that share an id share a title. *)
Definition no_id_clash (db : database) (items : list NewsItem) : Prop :=
  (∀ item, item ∈ items → title item ∉ row_title <$> news_items db →
     id item ∉ row_id <$> news_items db) ∧
  (∀ a b, a ∈ items → b ∈ items → id a = id b → title a = title b).

(** [LIMIT ?]: a negative limit is no limit. *)
Definition take_limit {A} (limit : Z) (l : list A) : list A :=
  if (limit <? 0)%Z then l else take (Z.to_nat limit) l.

(** Rows of equal [published_time] come in rowid order. *)
Definition get_latest_news (env : db_env) (db : database) (limit : Z)
    : outcome (list NewsItem) :=
  guarded env []
    (Return (item_of_row <$>
       take_limit limit (sort_desc row_published_time (news_items db)))).

Definition get_unread_news (env : db_env) (db : database) (limit : Z)
    : outcome (list NewsItem) :=
  guarded env []
    (Return (item_of_row <$>
       take_limit limit
         (sort_desc row_published_time
            (filter (λ row, row_is_read row = 0%Z) (news_items db))))).

Definition set_is_read (row : Row) : Row :=
  {| row_id := row_id row; row_title := row_title row; row_link := row_link row;
     row_source := row_source row; row_published_time := row_published_time row;
     row_category := row_category row; row_is_read := 1%Z |}.

(** [UPDATE news_items SET is_read = 1 WHERE id = ?]. *)
Definition update_is_read (news_id : string) (rows : list Row) : list Row :=
  (λ row, if bool_decide (row_id row = news_id) then set_is_read row else row) <$> rows.

Definition mark_as_read (env : db_env) (db : database) (news_id : string)
    : outcome bool * database :=
  match env with
  | Ready =>
      (Return true,
       {| news_items := update_is_read news_id (news_items db);
          settings := settings db |})
  | Failing => (Return false, db)
  | Unopenable => (Raise UnboundLocalError, db)
  end.

Definition save_setting (env : db_env) (db : database) (key : string) (value : pyval)
    : outcome bool * database :=
  match env with
  | Ready =>
      match json_dumps value with
      | None => (Return false, db)
      | Some value_json =>
          let settings' :=
            match settings db !! key with
            | Some _ => <[key := Json value_json]> (settings db)
            | None => <[key := Json value_json]> (settings db)
            end in
          (Return true, {| news_items := news_items db; settings := settings' |})
      end
  | Failing => (Return false, db)
  | Unopenable => (Raise UnboundLocalError, db)
  end.

Definition get_setting (env : db_env) (db : database) (key : string) (default : pyval)
    : outcome pyval :=
  guarded env default
    match settings db !! key with
    | Some (Json doc) => Return (json_loads doc)
    | Some NotJson => Return default
    | None => Return default
    end.

(** A call that can change the file, and a run of such calls. *)
Inductive call :=
  | SaveNewsItems (items : list NewsItem)
  | MarkAsRead (news_id : string)
  | SaveSetting (key : string) (value : pyval).

Definition run_call (db : database) (c : db_env * call) : database :=
  match c.2 with
  | SaveNewsItems items => (save_news_items c.1 db items).2
  | MarkAsRead news_id => (mark_as_read c.1 db news_id).2
  | SaveSetting key value => (save_setting c.1 db key value).2
  end.

Definition run_calls (db : database) (calls : list (db_env * call)) : database :=
  foldl run_call db calls.

(** The item [news_id] is stored and every row that holds it is read. *)
Definition marked_read (news_id : string) (rows : list Row) : Prop :=
  news_id ∈ row_id <$> rows ∧
  ∀ row, row ∈ rows → row_id row = news_id → row_is_read row ≠ 0%Z.

(** ** Notifications ([NotificationManager]) *)

(** [available] is [NOTIFICATION_AVAILABLE and self.toaster is not None];
    a registered callback is the [(link, id)] it was closed over. *)
Record manager := mkManager {
  available : bool;
  active_notifications : gmap string (string * string)
}.

Section Notify.
(** The type of the [delay] handed to [time.sleep]. *)
Context {D : Type}.

(** What a call does that can be seen from outside, in order: a toast
    thread started with its title and message, an item that was not shown
    (the warning or error log line), a [time.sleep]. *)
Inductive event :=
  | Toast (toast_title message : string)
  | NotShown (item : NewsItem)
  | Sleep (delay : D).

Definition is_sleep (e : event) : Prop :=
  match e with
  | Sleep _ => True
  | _ => False
  end.

Global Instance is_sleep_dec e : Decision (is_sleep e).
Proof. destruct e; simpl; apply _. Defined.

(** [thread_started] tells whether [threading.Thread(..).start()] returns
    ([false]: it raises, and the [except] returns [False]). *)
Definition show_news_notification (thread_started : bool) (m : manager)
    (news_item : NewsItem) : bool * manager * list event :=
  if negb (available m) then (false, m, [NotShown news_item])
  else
    let toast_title := source news_item +:+ " - " +:+ category news_item in
    let message := title news_item in
    let m' := {| available := available m;
                 active_notifications :=
                   <[id news_item := (link news_item, id news_item)]>
                     (active_notifications m) |} in
    if thread_started then (true, m', [Toast toast_title message])
    else (false, m', [NotShown news_item]).

(** The loop of [show_multiple_news_notifications]: [total] is
    [len(news_items)], [i] the position of the next item, [started i] the
    fate of its thread. *)
Fixpoint notify_loop (total : nat) (delay : D) (started : nat → bool) (i : nat)
    (items : list NewsItem) (success_count : nat) (m : manager)
    : nat * manager * list event :=
  match items with
  | [] => (success_count, m, [])
  | item :: rest =>
      let '(ok, m', shown) := show_news_notification (started i) m item in
      if ok then
        let success_count' := S success_count in
        let slept :=
          if bool_decide (success_count' < total) then [Sleep delay] else [] in
        let '(n, m'', trace) :=
          notify_loop total delay started (S i) rest success_count' m' in
        (n, m'', shown ++ slept ++ trace)
      else
        let '(n, m'', trace) :=
          notify_loop total delay started (S i) rest success_count m' in
        (n, m'', shown ++ trace)
  end.

Definition show_multiple_news_notifications (started : nat → bool) (m : manager)
    (news_items : list NewsItem) (delay : D) : nat * manager * list event :=
  match news_items with
  | [] => (0, m, [])
  | _ => notify_loop (length news_items) delay started 0 news_items 0 m
  end.

(** What the specification says of the batch: a sleep after a shown item
    exactly when an item follows it. *)
Fixpoint notify_batch_spec (delay : D) (started : nat → bool) (i : nat)
    (items : list NewsItem) (m : manager) : nat * manager * list event :=
  match items with
  | [] => (0, m, [])
  | item :: rest =>
      let '(ok, m', shown) := show_news_notification (started i) m item in
      let slept :=
        if ok && bool_decide (rest ≠ []) then [Sleep delay] else [] in
      let '(n, m'', trace) := notify_batch_spec delay started (S i) rest m' in
      ((if ok then S n else n), m'', shown ++ slept ++ trace)
  end.
End Notify.
Global Arguments event : clear implicits.


(** ** Further definitions *)

(** A value that holds, at any depth, an object [json.dumps] rejects. *)
Fixpoint has_object (v : pyval) : bool :=
  match v with
  | PyNone | PyBool _ | PyInt _ | PyStr _ => false
  | PyList l | PyTuple l => existsb has_object l
  | PyDict d => existsb (λ kv, has_object kv.2) d
  | PyObject => true
  end.

(** The dict [NewsItem.to_dict] builds and [NewsItem.from_dict] reads, by
    key; [None] is a key that is absent. *)
Record item_dict := mkItemDict {
  d_id : option string;
  d_title : option string;
  d_link : option string;
  d_source : option string;
  d_published_time : option string;
  d_category : option string;
  d_is_read : option bool
}.

(** [item.id = new_id]. *)
Definition set_id (new_id : string) (item : NewsItem) : NewsItem :=
  {| id := new_id; title := title item; link := link item; source := source item;
     published_time := published_time item; category := category item;
     is_read := is_read item |}.

Section Dict.
(** [datetime.isoformat] and [datetime.fromisoformat] ([None] for
    [ValueError]), and [hash] on strings. *)
Variable isoformat : Z → string.
Variable fromisoformat : string → option Z.
Variable hash : string → Z.

Definition to_dict (item : NewsItem) : item_dict :=
  {| d_id := Some (id item); d_title := Some (title item);
     d_link := Some (link item); d_source := Some (source item);
     d_published_time := Some (isoformat (published_time item));
     d_category := Some (category item); d_is_read := Some (is_read item) |}.

(** [from_dict] at clock reading [t]; [None] is the [KeyError] of a missing
    key or the [ValueError] of a date that does not parse.  The id the
    constructor makes is replaced by [data['id']]. *)
Definition from_dict (t : Z) (data : item_dict) : option NewsItem :=
  title ← d_title data;
  link ← d_link data;
  source ← d_source data;
  published ← d_published_time data;
  published_time ← fromisoformat published;
  let item :=
    NewsItem_init hash t title link source published_time
      (default "AI/科技" (d_category data)) (default false (d_is_read data)) in
  item_id ← d_id data;
  Some (set_id item_id item).
End Dict.

(** ** The refresh ([MainWindow._fetch_news_thread]) *)

(** What the thread posts to the window. *)
Inductive posted_event :=
  | NewsRefreshEvent (saved_count : nat) (show_notification : bool)
  | NewsRefreshErrorEvent (e : exn).

Section Refresh.
Variable lower : string → string.
Variable hash : string → Z.
Variable fromisoformat : string → option Z.
Variable strptime_gmt : string → option Z.
Variable time_s : nat → Z.
Variable now : nat → Z.

(** Fetch, save, post; an exception of either step is caught and posted. *)
Definition _fetch_news_thread (response : option (list article))
    (read : feed_info → option (list entry)) (feeds : list feed_info)
    (tick : nat) (env : db_env) (db : database) (show_notification : bool)
    : posted_event * database * nat :=
  let '(fetched, tick') :=
    fetch_all_news_on lower hash fromisoformat strptime_gmt time_s now
      response read feeds tick in
  match save_news_items env db fetched with
  | (Return saved_count, db') =>
      (NewsRefreshEvent saved_count show_notification, db', tick')
  | (Raise e, db') => (NewsRefreshErrorEvent e, db', tick')
  end.
End Refresh.

(** ** Notifications, continued *)

Section NotifyMore.
Context {D : Type}.

(** The toast [show_news_notification] raises for an item. *)
Definition toast_of (item : NewsItem) : event D :=
  Toast (source item +:+ " - " +:+ category item) (title item).

Definition is_toast (e : event D) : Prop :=
  match e with
  | Toast _ _ => True
  | _ => False
  end.

Global Instance is_toast_dec e : Decision (is_toast e).
Proof. destruct e; simpl; apply _. Defined.

(** The items of a batch whose thread starts; [i] is the position of the
    first. *)
Fixpoint started_items (started : nat → bool) (i : nat) (items : list NewsItem)
    : list NewsItem :=
  match items with
  | [] => []
  | item :: rest =>
      (if started i then [item] else []) ++ started_items started (S i) rest
  end.

(** [self.active_notifications[item.id] = callback] for each item in turn. *)
Definition register_all (items : list NewsItem)
    (active : gmap string (string * string)) : gmap string (string * string) :=
  foldl (λ a item, <[id item := (link item, id item)]> a) active items.

(** [_on_notification_clicked]; the second component is the URL handed to the
    browser.  [browser_ok = false]: [webbrowser.open] raises, which the
    [except] logs. *)
Definition _on_notification_clicked (browser_ok : bool) (m : manager)
    (url news_id : string) : manager * option string :=
  if browser_ok then
    ({| available := available m;
        active_notifications := delete news_id (active_notifications m) |},
     Some url)
  else (m, None).

(** [MainWindow.show_notifications]; [default_delay] is the default of
    [show_multiple_news_notifications]. *)
Definition show_notifications (notification_enabled : bool) (started : nat → bool)
    (m : manager) (news_items : list NewsItem) (default_delay : D)
    : manager * list (event D) :=
  if negb notification_enabled || bool_decide (news_items = []) then (m, [])
  else
    let items_to_show := take 3 news_items in
    let '(_, m', trace) :=
      show_multiple_news_notifications started m items_to_show default_delay in
    (m', trace).
End NotifyMore.

(** ** The window's settings and lists ([MainWindow]) *)

(** Sequencing of calls that may raise. *)
Definition outcome_bind {A B} (x : outcome A) (f : A → outcome B) : outcome B :=
  match x with
  | Return a => f a
  | Raise e => Raise e
  end.

(** Python's truth value of a setting. *)
Definition truthy (v : pyval) : bool :=
  match v with
  | PyNone => false
  | PyBool b => b
  | PyInt z => bool_decide (z ≠ 0%Z)
  | PyStr s => bool_decide (s ≠ "")
  | PyList l | PyTuple l => bool_decide (l ≠ [])
  | PyDict d => bool_decide (d ≠ [])
  | PyObject => true
  end.

(** The four attributes [load_settings] sets and [save_settings] saves. *)
Record app_settings := mkAppSettings {
  notification_enabled : pyval;
  refresh_interval : pyval;
  auto_start : pyval;
  start_minimized : pyval
}.

(** [load_settings]; the second component tells whether [self.hide()] is
    called. *)
Definition load_settings (env : db_env) (db : database)
    : outcome (app_settings * bool) :=
  outcome_bind (get_setting env db "notification_enabled" (PyBool true)) (λ ne,
  outcome_bind (get_setting env db "refresh_interval" (PyInt 15)) (λ ri,
  outcome_bind (get_setting env db "auto_start" (PyBool false)) (λ au,
  outcome_bind (get_setting env db "start_minimized" (PyBool true)) (λ sm,
  Return (mkAppSettings ne ri au sm, truthy sm))))).

(** [set_auto_start] on the values of the registry key [Run]: [win32] is
    [sys.platform == "win32"], [registry_ok = false] a registry call that
    raises, which the [except] logs. *)
Definition set_auto_start (win32 registry_ok : bool) (app_path : string)
    (enabled : pyval) (run_key : gmap string string) : gmap string string :=
  if win32 then
    if registry_ok then
      if truthy enabled then <["AINewsNotifier" := app_path]> run_key
      else delete "AINewsNotifier" run_key
    else run_key
  else run_key.

(** One [self.storage.save_setting(..)] statement followed by the rest of
    the method: an exception ends the method. *)
Definition then_save (env : db_env) (key : string) (value : pyval)
    (st : outcome unit * database) : outcome unit * database :=
  match st with
  | (Return _, db) =>
      match save_setting env db key value with
      | (Return _, db') => (Return tt, db')
      | (Raise e, db') => (Raise e, db')
      end
  | (Raise e, db) => (Raise e, db)
  end.

Definition save_settings (env : db_env) (db : database) (s : app_settings)
    (win32 registry_ok : bool) (app_path : string) (run_key : gmap string string)
    : outcome unit * database * gmap string string :=
  let st0 := (Return tt, db) in
  let st1 := then_save env "notification_enabled" (notification_enabled s) st0 in
  let st2 := then_save env "refresh_interval" (refresh_interval s) st1 in
  let st3 := then_save env "auto_start" (auto_start s) st2 in
  let st4 := then_save env "start_minimized" (start_minimized s) st3 in
  match st4 with
  | (Return _, db') =>
      (Return tt, db',
       set_auto_start win32 registry_ok app_path (auto_start s) run_key)
  | (Raise e, db') => (Raise e, db', run_key)
  end.

(** [update_news_lists]: the items of the two lists, latest and history. *)
Definition update_news_lists (env : db_env) (db : database)
    : outcome (list NewsItem * list NewsItem) :=
  outcome_bind (get_latest_news env db 20) (λ latest_news,
  outcome_bind (get_latest_news env db 100) (λ all_news,
  Return (latest_news, all_news))).

(** * Properties *)

(** *** Substring search *)

Lemma starts_with_spec p s :
  Str.starts_with p s = true ↔ ∃ t, s = p +:+ t.
Proof.
  revert s. induction p as [|a p IH]; intros s; simpl.
  - split; [eauto | done].
  - destruct s as [|b s].
    + split; [done | by intros [t ?]].
    + rewrite andb_true_iff, bool_decide_eq_true, IH. split.
      * intros [-> [t ->]]. by exists t.
      * intros [t Ht]. injection Ht as -> ->. eauto.
Qed.

Lemma contains_spec needle hay :
  Str.contains needle hay = true ↔ ∃ pre post, hay = pre +:+ needle +:+ post.
Proof.
  induction hay as [|c hay IH]; simpl;
    rewrite orb_true_iff, starts_with_spec.
  - split.
    + intros [[t Ht]|?]; [|done]. by exists "", t.
    + intros ([|??] & post & Hp); [left; by exists post | done].
  - rewrite IH. split.
    + intros [[t Ht]|(pre & post & ->)].
      * by exists "", t.
      * by exists (String c pre), post.
    + intros ([|c' pre] & post & Hp).
      * left. by exists post.
      * right. injection Hp as -> ->. eauto.
Qed.

Section CategorizeFacts.
Variable lower : string → string.

Lemma scan_keywords_spec keywords title :
  scan_keywords lower keywords (lower title) = true ↔ mentions lower keywords title.
Proof.
  unfold mentions. induction keywords as [|k ks IH]; simpl.
  - split; [done | intros (? & []%elem_of_nil & _)].
  - destruct (Str.contains (lower k) (lower title)) eqn:Hk.
    + split; [intros _ | done].
      exists k. split; [left | by apply contains_spec].
    + rewrite IH. split.
      * intros (k' & ? & ?). exists k'. split; [by right | done].
      * intros (k' & [->|?]%elem_of_cons & Hocc); [|eauto].
        apply contains_spec in Hocc. congruence.
Qed.

Lemma scan_keywords_false keywords title :
  scan_keywords lower keywords (lower title) = false ↔ ¬ mentions lower keywords title.
Proof. rewrite <-scan_keywords_spec. by destruct (scan_keywords _ _ _). Qed.
End CategorizeFacts.

(** C4. The category of a title is "AI" when a keyword of the AI list occurs
    in the lower-cased title as a substring (keyword lower-cased too);
    otherwise "科技" when a keyword of the tech list does; otherwise the
    default "AI/科技".  The AI list is consulted first. *)
Theorem categorize_by_keywords_spec (lower : string → string) (title : string) :
  (mentions lower ai_keywords title →
     _categorize_by_keywords lower title = "AI") ∧
  (¬ mentions lower ai_keywords title → mentions lower tech_keywords title →
     _categorize_by_keywords lower title = "科技") ∧
  (¬ mentions lower ai_keywords title → ¬ mentions lower tech_keywords title →
     _categorize_by_keywords lower title = "AI/科技").
Proof.
  unfold _categorize_by_keywords.
  split; [|split].
  - intros Hai%scan_keywords_spec. by rewrite Hai.
  - intros Hai%scan_keywords_false Htech%scan_keywords_spec.
    by rewrite Hai, Htech.
  - intros Hai%scan_keywords_false Htech%scan_keywords_false.
    by rewrite Hai, Htech.
Qed.

(** The three cases on concrete titles: an AI keyword, a tech keyword beside
    the unrelated word "Tailwind" whose "ai" is an AI match, a tech keyword
    alone, and no keyword. *)
Lemma categorize_by_keywords_witness :
  _categorize_by_keywords Str.lower_ascii_string "开源深度学习框架发布" = "AI" ∧
  _categorize_by_keywords Str.lower_ascii_string "Tailwind 区块链" = "AI" ∧
  _categorize_by_keywords Str.lower_ascii_string "区块链结算网络上线" = "科技" ∧
  _categorize_by_keywords Str.lower_ascii_string "weekly digest" = "AI/科技".
Proof.
  pose (lo := Str.lower_ascii_string).
  split; [|split; [|split]].
  - apply (proj1 (categorize_by_keywords_spec lo "开源深度学习框架发布")).
    apply scan_keywords_spec. vm_compute. reflexivity.
  - apply (proj1 (categorize_by_keywords_spec lo "Tailwind 区块链")).
    apply scan_keywords_spec. vm_compute. reflexivity.
  - apply (proj1 (proj2 (categorize_by_keywords_spec lo "区块链结算网络上线"))).
    + apply scan_keywords_false. vm_compute. reflexivity.
    + apply scan_keywords_spec. vm_compute. reflexivity.
  - apply (proj2 (proj2 (categorize_by_keywords_spec lo "weekly digest"))).
    + apply scan_keywords_false. vm_compute. reflexivity.
    + apply scan_keywords_false. vm_compute. reflexivity.
Defined.

(** ** The stable descending sort *)

Section SortFacts.
Context {A : Type} (key : A → Z).

Lemma insert_desc_perm x l : insert_desc key x l ≡ₚ x :: l.
Proof.
  induction l as [|y l IH]; simpl; [done|].
  case_match; [done|]. rewrite IH. apply Permutation_swap.
Qed.

Lemma sort_desc_perm l : sort_desc key l ≡ₚ l.
Proof.
  induction l as [|x l IH]; simpl; [done|].
  by rewrite insert_desc_perm, IH.
Qed.

Lemma insert_desc_sorted x l :
  StronglySorted (λ a b, (key b ≤ key a)%Z) l →
  StronglySorted (λ a b, (key b ≤ key a)%Z) (insert_desc key x l).
Proof.
  induction 1 as [|y l Hl IH Hy]; simpl.
  - repeat constructor.
  - destruct (Z.leb_spec (key y) (key x)) as [Hle|Hgt].
    + constructor; [by constructor|].
      constructor; [done|].
      eapply Forall_impl; [exact Hy|]. simpl. lia.
    + constructor; [done|].
      rewrite insert_desc_perm. constructor; [lia|done].
Qed.

Lemma sort_desc_sorted l :
  StronglySorted (λ a b, (key b ≤ key a)%Z) (sort_desc key l).
Proof.
  induction l as [|x l IH]; simpl; [constructor|].
  by apply insert_desc_sorted.
Qed.

Lemma insert_desc_stable t x l :
  filter (λ a, key a = t) (insert_desc key x l) = filter (λ a, key a = t) (x :: l).
Proof.
  induction l as [|y l IH]; simpl; [done|].
  destruct (Z.leb_spec (key y) (key x)) as [Hle|Hgt]; [done|].
  rewrite filter_cons, IH, !filter_cons.
  repeat case_decide; try done; lia.
Qed.

Lemma sort_desc_stable t l :
  filter (λ a, key a = t) (sort_desc key l) = filter (λ a, key a = t) l.
Proof.
  induction l as [|x l IH]; simpl; [done|].
  by rewrite insert_desc_stable, !filter_cons, IH.
Qed.
End SortFacts.

(** ** Dropping repeated titles *)

Lemma first_occurrences_after_nil pre : first_occurrences_after pre [] = [].
Proof. done. Qed.

Lemma first_occurrences_after_cons pre x l :
  first_occurrences_after pre (x :: l) =
    (if bool_decide (title x ∈ title <$> pre) then [] else [x]) ++
    first_occurrences_after (pre ++ [x]) l.
Proof.
  unfold first_occurrences_after. rewrite imap_cons. simpl.
  rewrite app_nil_r. f_equal. f_equal.
  apply imap_ext. intros i y _. simpl. by rewrite <-app_assoc.
Qed.

Lemma dedup_loop pre seen out l :
  (∀ t, t ∈ seen ↔ t ∈ title <$> pre) →
  (foldl dedup_step (seen, out) l).2 = out ++ first_occurrences_after pre l.
Proof.
  revert pre seen out. induction l as [|x l IH]; intros pre seen out Hseen.
  - simpl. by rewrite first_occurrences_after_nil, app_nil_r.
  - rewrite first_occurrences_after_cons. simpl.
    destruct (decide (title x ∈ seen)) as [Hin|Hnotin].
    + rewrite (bool_decide_eq_false_2 (title x ∉ seen)) by tauto.
      rewrite (bool_decide_eq_true_2 (title x ∈ title <$> pre)) by by apply Hseen.
      apply IH. intros t. rewrite fmap_app, elem_of_app, <-Hseen. simpl.
      rewrite list_elem_of_singleton. split; [by left|].
      by intros [?| ->].
    + rewrite (bool_decide_eq_true_2 (title x ∉ seen)) by done.
      rewrite (bool_decide_eq_false_2 (title x ∈ title <$> pre))
        by by rewrite <-Hseen.
      rewrite (IH (pre ++ [x])), <-app_assoc; [done|].
      intros t. rewrite fmap_app, elem_of_app, <-Hseen. simpl.
      rewrite list_elem_of_singleton, elem_of_union, elem_of_singleton.
      tauto.
Qed.

Lemma dedup_by_title_first_occurrences l :
  dedup_by_title l = first_occurrences l.
Proof.
  unfold dedup_by_title, first_occurrences.
  rewrite (dedup_loop []); [done|]. set_solver.
Qed.

Lemma elem_of_first_occurrences_after pre l y :
  y ∈ first_occurrences_after pre l ↔
    ∃ l1 l2, l = l1 ++ y :: l2 ∧ title y ∉ title <$> pre ++ l1.
Proof.
  revert pre. induction l as [|x l IH]; intros pre.
  - rewrite first_occurrences_after_nil. split; [by intros ?%elem_of_nil|].
    by intros ([|??] & ? & ? & _).
  - rewrite first_occurrences_after_cons, elem_of_app, IH. split.
    + intros [Hhd|(l1 & l2 & -> & Hy)].
      * case_bool_decide as Hx; [by apply elem_of_nil in Hhd|].
        apply list_elem_of_singleton in Hhd as ->.
        exists [], l. by rewrite app_nil_r.
      * exists (x :: l1), l2. split; [done|].
        by rewrite <-app_assoc in Hy.
    + intros ([|x' l1] & l2 & Heq & Hy); simplify_eq/=.
      * left. rewrite app_nil_r in Hy.
        rewrite bool_decide_eq_false_2 by done. by left.
      * right. exists l1, l2. split; [done|]. by rewrite <-app_assoc.
Qed.

Lemma first_occurrences_after_sublist pre l :
  first_occurrences_after pre l `sublist_of` l.
Proof.
  revert pre. induction l as [|x l IH]; intros pre.
  - by rewrite first_occurrences_after_nil.
  - rewrite first_occurrences_after_cons. case_bool_decide; simpl.
    + by apply sublist_cons.
    + by apply sublist_skip.
Qed.

Lemma first_occurrences_after_NoDup pre l :
  NoDup (title <$> first_occurrences_after pre l).
Proof.
  revert pre. induction l as [|x l IH]; intros pre.
  - rewrite first_occurrences_after_nil. constructor.
  - rewrite first_occurrences_after_cons. case_bool_decide; simpl; [done|].
    constructor; [|done].
    intros (y & Hy & (l1 & l2 & _ & Hnot)%elem_of_first_occurrences_after)%list_elem_of_fmap.
    apply Hnot. rewrite !fmap_app, !elem_of_app. left; right.
    simpl. rewrite Hy. by left.
Qed.

Lemma first_occurrences_covers l x :
  x ∈ l →
  ∃ l1 y l2, l = l1 ++ y :: l2 ∧ y ∈ first_occurrences l ∧ title y = title x ∧
             (x = y ∨ x ∈ l2).
Proof.
  revert x. induction l as [|z l IH] using rev_ind; intros x;
    [by intros ?%elem_of_nil|].
  intros [Hx|Hx]%elem_of_app.
  - destruct (IH _ Hx) as (l1 & y & l2 & -> & Hy & Ht & Hpos).
    exists l1, y, (l2 ++ [z]). split; [by rewrite <-app_assoc|].
    split; [|split; [done|]].
    + apply elem_of_first_occurrences_after in Hy as (k1 & k2 & Heq & Hnot).
      apply elem_of_first_occurrences_after.
      exists k1, (k2 ++ [z]). split; [|done].
      by rewrite Heq, <-app_assoc.
    + destruct Hpos; [by left|right]. rewrite elem_of_app. by left.
  - apply list_elem_of_singleton in Hx as ->.
    destruct (decide (title z ∈ title <$> l)) as [Hin|Hnotin].
    + apply list_elem_of_fmap in Hin as (w & Hw & Hwl).
      destruct (IH _ Hwl) as (l1 & y & l2 & -> & Hy & Ht & _).
      exists l1, y, (l2 ++ [z]). split; [by rewrite <-app_assoc|].
      split; [|split; [congruence|]].
      * apply elem_of_first_occurrences_after in Hy as (k1 & k2 & Heq & Hnot).
        apply elem_of_first_occurrences_after.
        exists k1, (k2 ++ [z]). split; [|done].
        by rewrite Heq, <-app_assoc.
      * right. rewrite elem_of_app, list_elem_of_singleton. by right.
    + exists l, z, []. split; [done|]. split; [|by split; [|left]].
      apply elem_of_first_occurrences_after. by exists l, [].
Qed.

(** C3. The sort-and-dedup phase of [fetch_all_news] returns its input
    stable-sorted by [published_time], newest first (a permutation of the
    input, in descending order, items of equal time in input order), cut
    down to the first occurrence of every title in that order: the result is
    a subsequence of the sorted list, holds each title once, and for every
    input item holds an item of the same title that is at least as new. *)
Theorem merge_and_dedup_spec (all_news : list NewsItem) :
  let sorted := sort_desc published_time all_news in
  sorted ≡ₚ all_news ∧
  StronglySorted (λ x y, (published_time y ≤ published_time x)%Z) sorted ∧
  (∀ t, filter (λ x, published_time x = t) sorted =
        filter (λ x, published_time x = t) all_news) ∧
  merge_and_dedup all_news = first_occurrences sorted ∧
  merge_and_dedup all_news `sublist_of` sorted ∧
  NoDup (title <$> merge_and_dedup all_news) ∧
  (∀ x, x ∈ all_news →
     ∃ y, y ∈ merge_and_dedup all_news ∧ title y = title x ∧
          (published_time x ≤ published_time y)%Z).
Proof.
  intros sorted. unfold merge_and_dedup. fold sorted.
  rewrite dedup_by_title_first_occurrences.
  pose proof (sort_desc_sorted published_time all_news) as Hsorted.
  fold sorted in Hsorted.
  split; [apply sort_desc_perm|].
  split; [done|].
  split; [intros t; apply sort_desc_stable|].
  split; [done|].
  split; [apply first_occurrences_after_sublist|].
  split; [apply first_occurrences_after_NoDup|].
  intros x Hx.
  assert (x ∈ sorted) as Hxs by (unfold sorted; by rewrite sort_desc_perm).
  destruct (first_occurrences_covers _ _ Hxs) as (l1 & y & l2 & Heq & Hy & Ht & Hpos).
  exists y. split; [done|]. split; [done|].
  destruct Hpos as [->|Hx2]; [lia|].
  rewrite Heq in Hsorted.
  apply StronglySorted_app_1_r, StronglySorted_cons in Hsorted as [Hall _].
  by eapply Forall_forall in Hall.
Qed.

(** The scenario of the specification: [A] at time 1, [B] at time 2, and a
    second item titled like [A] at time 3. *)
Lemma merge_and_dedup_witness :
  let A1 := mkNewsItem "s_1_1" "A" "http://old" "s" 1 "AI" false in
  let B2 := mkNewsItem "s_1_2" "B" "http://b" "s" 2 "AI" false in
  let A3 := mkNewsItem "t_1_1" "A" "http://new" "t" 3 "AI" false in
  merge_and_dedup [A1; B2; A3] = [A3; B2] ∧
  ∃ y, y ∈ merge_and_dedup [A1; B2; A3] ∧ title y = "A" ∧ (1 ≤ published_time y)%Z.
Proof.
  intros A1 B2 A3.
  destruct (merge_and_dedup_spec [A1; B2; A3]) as (_ & _ & _ & Heq & _ & _ & Hnew).
  split.
  - rewrite Heq. vm_compute. reflexivity.
  - apply (Hnew A1). left.
Defined.

Example merge_and_dedup_newest_wins :
  merge_and_dedup
    [ mkNewsItem "s_1_1" "A" "http://old" "s" 1 "AI" false;
      mkNewsItem "s_1_2" "B" "http://b" "s" 2 "AI" false;
      mkNewsItem "t_1_1" "A" "http://new" "t" 3 "AI" false ] =
    [ mkNewsItem "t_1_1" "A" "http://new" "t" 3 "AI" false;
      mkNewsItem "s_1_2" "B" "http://b" "s" 2 "AI" false ].
Proof. vm_compute. reflexivity. Qed.

(** ** The sources *)

Section FetchFacts.
Variable lower : string → string.
Variable hash : string → Z.
Variable fromisoformat : string → option Z.
Variable strptime_gmt : string → option Z.
Variable time_s : nat → Z.
Variable now : nat → Z.

Local Abbreviation newsapi_loop := (newsapi_loop lower hash fromisoformat time_s).
Local Abbreviation entries_loop := (entries_loop hash strptime_gmt time_s now).
Local Abbreviation feeds_loop := (feeds_loop hash strptime_gmt time_s now).

(** An article whose date does not parse makes the whole loop raise. *)
Lemma newsapi_loop_bad_date articles acc tick a :
  a ∈ articles →
  fromisoformat (Str.remove_char "Z" (publishedAt a)) = None →
  (newsapi_loop articles acc tick).1 = None.
Proof.
  intros Hin Hbad. revert acc tick.
  induction articles as [|b rest IH]; intros acc tick;
    [by apply elem_of_nil in Hin|].
  simpl. apply elem_of_cons in Hin as [<-|Hin].
  - by rewrite Hbad.
  - destruct (fromisoformat (Str.remove_char "Z" (publishedAt b)));
      [by apply IH|done].
Qed.

(** When every date parses, every article yields its item, in order. *)
Lemma newsapi_loop_all_dates articles acc tick :
  Forall (λ a, is_Some (fromisoformat (Str.remove_char "Z" (publishedAt a))))
    articles →
  ∃ news_items,
    newsapi_loop articles acc tick = (Some news_items, tick + length articles) ∧
    title <$> news_items = (title <$> acc) ++ (art_title <$> articles).
Proof.
  intros Hall. revert acc tick.
  induction Hall as [|a rest [dt Hdt] _ IH]; intros acc tick; simpl.
  - exists acc. by rewrite Nat.add_0_r, app_nil_r.
  - rewrite Hdt. destruct (IH (acc ++
      [NewsItem_init hash (time_s tick) (art_title a) (url a) (source_name a) dt
         (_categorize_by_keywords lower (art_title a)) false]) (S tick))
      as (news_items & -> & Htitles).
    exists news_items. split; [f_equal; lia|].
    by rewrite Htitles, fmap_app, <-app_assoc.
Qed.

Lemma entries_loop_acc feed entries acc tick :
  entries_loop feed entries acc tick =
    (acc ++ (entries_loop feed entries [] tick).1,
     (entries_loop feed entries [] tick).2).
Proof.
  revert acc tick. induction entries as [|e rest IH]; intros acc tick; simpl.
  - by rewrite app_nil_r.
  - rewrite IH. rewrite (IH [_]). simpl. by rewrite <-app_assoc.
Qed.

Lemma entries_loop_titles feed entries tick :
  title <$> (entries_loop feed entries [] tick).1 = entry_title <$> entries ∧
  (entries_loop feed entries [] tick).2 = tick + length entries.
Proof.
  revert tick. induction entries as [|e rest IH]; intros tick; simpl; [auto|].
  rewrite entries_loop_acc. simpl. destruct (IH (S tick)) as [Ht ->].
  split; [f_equal; exact Ht|lia].
Qed.

Lemma feeds_loop_acc read feeds acc tick :
  feeds_loop read feeds acc tick =
    (acc ++ (concat_feeds hash strptime_gmt time_s now read feeds tick).1,
     (concat_feeds hash strptime_gmt time_s now read feeds tick).2).
Proof.
  revert acc tick. induction feeds as [|feed rest IH]; intros acc tick; simpl.
  - by rewrite app_nil_r.
  - unfold feed_result. destruct (read feed) as [entries|].
    + rewrite entries_loop_acc.
      destruct (entries_loop feed entries [] tick) as [items tick'] eqn:Hfeed.
      simpl. rewrite IH.
      destruct (concat_feeds _ _ _ _ read rest tick') as [more tick''].
      simpl. by rewrite <-app_assoc.
    + rewrite IH.
      by destruct (concat_feeds _ _ _ _ read rest tick) as [more tick''].
Qed.
End FetchFacts.

(** The two sources on the data the code carries. *)
Example fetch_from_rss_titles (hash : string → Z) (strptime_gmt : string → option Z)
    (time_s now : nat → Z) (tick : nat) :
  title <$> (fetch_from_rss hash strptime_gmt time_s now tick).1 =
    [ "新型神经形态芯片模拟人脑突触连接"; "AI辅助药物发现平台缩短新药研发周期";
      "多模态AI系统实现跨领域知识迁移";
      "自监督学习突破：AI模型仅需少量标注数据即可达到SOTA" ] ∧
  category <$> (fetch_from_rss hash strptime_gmt time_s now tick).1 =
    [ "科技"; "科技"; "AI"; "AI" ].
Proof. by vm_compute. Qed.

Example fetch_from_newsapi_categories (hash : string → Z) (time_s : nat → Z) :
  category <$>
    (fetch_from_newsapi Str.lower_ascii_string hash (λ _, Some 0%Z) time_s 0).1 =
    [ "AI"; "科技"; "科技" ].
Proof. by vm_compute. Qed.

(** C7. Neither source raises to its caller.  [fetch_from_newsapi] yields the
    empty sequence when its request or an article fails, and an item per
    article otherwise; inside [fetch_from_rss] a feed that fails contributes
    the empty sequence and a feed that is read contributes an item per entry,
    the result being the concatenation over all feeds; [fetch_all_news]
    merges whatever the two sources returned. *)
Theorem fetch_all_news_tolerant
    (lower : string → string) (hash : string → Z)
    (fromisoformat strptime_gmt : string → option Z) (time_s now : nat → Z)
    (response : option (list article)) (read : feed_info → option (list entry))
    (feeds : list feed_info) (tick : nat) :
  let newsapi := fetch_from_newsapi_on lower hash fromisoformat time_s response tick in
  let feed_result := feed_result hash strptime_gmt time_s now read in
  let concat_feeds := concat_feeds hash strptime_gmt time_s now read in
  (response = None → newsapi.1 = []) ∧
  (∀ articles a, response = Some articles → a ∈ articles →
     fromisoformat (Str.remove_char "Z" (publishedAt a)) = None →
     newsapi.1 = []) ∧
  (∀ articles, response = Some articles →
     Forall (λ a, is_Some (fromisoformat (Str.remove_char "Z" (publishedAt a))))
       articles →
     title <$> newsapi.1 = art_title <$> articles) ∧
  (∀ feed t, read feed = None → feed_result feed t = ([], t)) ∧
  (∀ feed entries t, read feed = Some entries →
     title <$> (feed_result feed t).1 = entry_title <$> entries) ∧
  fetch_from_rss_on hash strptime_gmt time_s now read feeds newsapi.2 =
    concat_feeds feeds newsapi.2 ∧
  (fetch_all_news_on lower hash fromisoformat strptime_gmt time_s now
     response read feeds tick).1 =
    merge_and_dedup (newsapi.1 ++ (concat_feeds feeds newsapi.2).1).
Proof.
  intros newsapi fr cf. subst fr cf.
  assert (∀ t, fetch_from_rss_on hash strptime_gmt time_s now read feeds t =
               concat_feeds hash strptime_gmt time_s now read feeds t) as Hrss.
  { intros t. unfold fetch_from_rss_on. rewrite feeds_loop_acc. simpl.
    by destruct (concat_feeds _ _ _ _ _ _ _). }
  repeat split.
  - intros ->. done.
  - intros articles a -> Hin Hbad. subst newsapi. simpl.
    pose proof (newsapi_loop_bad_date lower hash fromisoformat time_s
                  articles [] tick a Hin Hbad) as Hnone.
    destruct (newsapi_loop _ _ _ _ _ _ _) as [[?|] ?]; [done|done].
  - intros articles -> Hall. subst newsapi. unfold fetch_from_newsapi_on.
    destruct (newsapi_loop_all_dates lower hash fromisoformat time_s
                articles [] tick Hall) as (news_items & Heq & Htitles).
    rewrite Heq. exact Htitles.
  - intros feed t Hfeed. unfold feed_result. by rewrite Hfeed.
  - intros feed entries t Hfeed. unfold feed_result. rewrite Hfeed.
    apply entries_loop_titles.
  - apply Hrss.
  - unfold fetch_all_news_on. fold newsapi.
    destruct newsapi as [from_newsapi tick1]. rewrite Hrss. simpl.
    by destruct (concat_feeds _ _ _ _ _ _ _).
Qed.

(** A run in which no article date parses and the feed "AI News" cannot be
    read: the batch is the two entries of "MIT Technology Review". *)
Lemma fetch_all_news_tolerant_witness :
  let read := λ feed, if bool_decide (feed_name feed = "AI News") then None
                      else Some (mock_entries feed) in
  title <$> (fetch_all_news_on Str.lower_ascii_string (λ _, 7%Z) (λ _, None)
               (λ _, Some 5%Z) (λ _, 100%Z) (λ _, 0%Z)
               (Some mock_articles) read rss_feeds 0).1 =
    [ "新型神经形态芯片模拟人脑突触连接"; "AI辅助药物发现平台缩短新药研发周期" ].
Proof.
  intros read.
  destruct (fetch_all_news_tolerant Str.lower_ascii_string (λ _, 7%Z) (λ _, None)
              (λ _, Some 5%Z) (λ _, 100%Z) (λ _, 0%Z)
              (Some mock_articles) read rss_feeds 0)
    as (_ & Hbad & _ & _ & _ & _ & Hall).
  rewrite Hall.
  rewrite (Hbad mock_articles
             (mkArticle "wired" "Wired" "量子计算突破：首个实用级容错量子处理器问世"
                "https://www.wired.com/2025/05/quantum-computing-breakthrough/"
                "2025-05-24T12:15:00Z")
             eq_refl ltac:(right; left) eq_refl).
  vm_compute. reflexivity.
Defined.

(** ** Saving news items *)

(** The loop only appends, and what it appends is new in title and in id. *)
Lemma save_loop_appends items rows n :
  ∃ added,
    foldl save_step (rows, n) items = (rows ++ added, n + length added) ∧
    NoDup (row_title <$> added) ∧
    NoDup (row_id <$> added) ∧
    ∀ row, row ∈ added →
      (row_title row ∉ row_title <$> rows) ∧
      (row_id row ∉ row_id <$> rows) ∧
      ∃ item, item ∈ items ∧ row = row_of_item item.
Proof.
  revert rows n. induction items as [|item items IH]; intros rows n.
  - exists []. rewrite app_nil_r, Nat.add_0_r.
    split; [done|]. split; [constructor|]. split; [constructor|].
    by intros ? ?%elem_of_nil.
  - assert (∀ added : list Row,
      (∀ row, row ∈ added →
         (row_title row ∉ row_title <$> rows) ∧
         (row_id row ∉ row_id <$> rows) ∧
         ∃ it, it ∈ items ∧ row = row_of_item it) →
      ∀ row, row ∈ added →
         (row_title row ∉ row_title <$> rows) ∧
         (row_id row ∉ row_id <$> rows) ∧
         ∃ it, it ∈ item :: items ∧ row = row_of_item it) as Hweaken.
    { intros added Hnew row Hrow.
      destruct (Hnew row Hrow) as (? & ? & it & ? & ?).
      split; [done|]. split; [done|]. exists it. split; [by right|done]. }
    cbn [foldl]. simpl. unfold insert_row.
    destruct (decide (title item ∈ row_title <$> rows)) as [Ht|Ht];
      [|destruct (decide (row_id (row_of_item item) ∈ row_id <$> rows)) as [Hi|Hi]].
    + rewrite bool_decide_eq_true_2 by done.
      destruct (IH rows n) as (added & -> & ? & ? & Hnew).
      exists added. repeat (split; [done|]). by apply Hweaken.
    + rewrite bool_decide_eq_false_2 by done.
      rewrite bool_decide_eq_true_2 by done.
      destruct (IH rows n) as (added & -> & ? & ? & Hnew).
      exists added. repeat (split; [done|]). by apply Hweaken.
    + rewrite bool_decide_eq_false_2 by done.
      rewrite bool_decide_eq_false_2 by done.
      destruct (IH (rows ++ [row_of_item item]) (S n))
        as (added & -> & Hnt & Hni & Hnew).
      exists (row_of_item item :: added).
      rewrite <-app_assoc. simpl.
      split; [f_equal; lia|].
      assert (∀ row, row ∈ added →
                row_title row ≠ title item ∧ row_id row ≠ id item ∧
                (row_title row ∉ row_title <$> rows) ∧
                (row_id row ∉ row_id <$> rows)) as Hfresh.
      { intros row Hrow. destruct (Hnew row Hrow) as (Ht' & Hi' & _).
        rewrite fmap_app, elem_of_app in Ht', Hi'. simpl in Ht', Hi'.
        rewrite list_elem_of_singleton in Ht', Hi'. tauto. }
      split; [|split].
      * constructor; [|done].
        intros (row & Heq & Hrow)%list_elem_of_fmap.
        destruct (Hfresh row Hrow) as (Hne & _). simpl in Heq. congruence.
      * constructor; [|done].
        intros (row & Heq & Hrow)%list_elem_of_fmap.
        destruct (Hfresh row Hrow) as (_ & Hne & _). simpl in Heq. congruence.
      * intros row [->|Hrow]%elem_of_cons.
        -- split; [done|]. split; [done|]. exists item. split; [by left|done].
        -- destruct (Hfresh row Hrow) as (_ & _ & ? & ?).
           destruct (Hnew row Hrow) as (_ & _ & it & ? & ?).
           split; [done|]. split; [done|]. exists it. split; [by right|done].
Qed.

(** An item the loop cannot insert into [rows]: its title or its id is
    taken. *)
Lemma save_step_blocked rows n item :
  title item ∈ row_title <$> rows ∨ id item ∈ row_id <$> rows →
  save_step (rows, n) item = (rows, n).
Proof.
  intros Hblocked. simpl. case_bool_decide; [done|].
  unfold insert_row. rewrite bool_decide_eq_true_2; [done|].
  by destruct Hblocked.
Qed.

Lemma save_loop_all_blocked items rows n :
  (∀ item, item ∈ items →
     title item ∈ row_title <$> rows ∨ id item ∈ row_id <$> rows) →
  foldl save_step (rows, n) items = (rows, n).
Proof.
  induction items as [|item items IH]; intros Hall; [done|].
  cbn [foldl]. rewrite save_step_blocked by (apply Hall; by left).
  apply IH. intros it Hit. apply Hall. by right.
Qed.

(** After the loop every item of the batch is blocked. *)
Lemma save_loop_blocks items rows n item :
  item ∈ items →
  title item ∈ row_title <$> (foldl save_step (rows, n) items).1 ∨
  id item ∈ row_id <$> (foldl save_step (rows, n) items).1.
Proof.
  revert rows n. induction items as [|x items IH]; intros rows n;
    [by intros ?%elem_of_nil|].
  cbn [foldl].
  destruct (save_step (rows, n) x) as [rows' n'] eqn:Hstep.
  intros [->|Hin]%elem_of_cons; [|by apply IH].
  destruct (save_loop_appends items rows' n') as (added & -> & _).
  cbn [fst]. rewrite !fmap_app, !elem_of_app.
  cut (title x ∈ row_title <$> rows' ∨ id x ∈ row_id <$> rows'); [tauto|].
  simpl in Hstep. unfold insert_row in Hstep.
  repeat case_bool_decide; simplify_eq; auto.
  left. rewrite fmap_app, elem_of_app. right. by left.
Qed.

Lemma save_news_items_ready db items :
  ∃ added,
    save_news_items Ready db items =
      (Return (length added),
       {| news_items := news_items db ++ added; settings := settings db |}) ∧
    NoDup (row_title <$> added) ∧
    NoDup (row_id <$> added) ∧
    ∀ row, row ∈ added →
      (row_title row ∉ row_title <$> news_items db) ∧
      (row_id row ∉ row_id <$> news_items db) ∧
      ∃ item, item ∈ items ∧ row = row_of_item item.
Proof.
  destruct items as [|item items].
  - exists []. rewrite app_nil_r. destruct db.
    split; [done|]. split; [constructor|]. split; [constructor|].
    by intros ? ?%elem_of_nil.
  - destruct (save_loop_appends (item :: items) (news_items db) 0)
      as (added & Hloop & ? & ? & ?).
    exists added. unfold save_news_items. by rewrite Hloop.
Qed.

Lemma save_news_items_not_ready env db items :
  env ≠ Ready → (save_news_items env db items).2 = db.
Proof. by destruct env, items. Qed.

Lemma filter_none {A} (P : A → Prop) `{∀ x, Decision (P x)} (l : list A) :
  (∀ x, x ∈ l → ¬ P x) → filter P l = [].
Proof.
  induction l as [|x l IH]; intros Hl; [done|].
  rewrite filter_cons_False by (apply Hl; by left).
  apply IH. intros y Hy. apply Hl. by right.
Qed.

Lemma NoDup_titles_app (rows added : list Row) :
  NoDup (row_title <$> rows) →
  NoDup (row_title <$> added) →
  (∀ row, row ∈ added → row_title row ∉ row_title <$> rows) →
  NoDup (row_title <$> rows ++ added).
Proof.
  intros Hrows Hadded Hnew. rewrite fmap_app. apply NoDup_app.
  split; [done|]. split; [|done].
  intros t Ht (row & -> & Hrow)%list_elem_of_fmap. by apply (Hnew row).
Qed.

(** C2. Saving one batch twice leaves the rows the first call left, and the
    second call returns 0. *)
Theorem save_news_items_idempotent (db : database) (items : list NewsItem) :
  let once := save_news_items Ready db items in
  let twice := save_news_items Ready once.2 items in
  twice.2 = once.2 ∧ twice.1 = Return 0.
Proof.
  destruct items as [|item items]; [done|].
  cbn zeta.
  assert (∀ db', save_news_items Ready db' (item :: items) =
            (Return (foldl save_step (news_items db', 0) (item :: items)).2,
             {| news_items := (foldl save_step (news_items db', 0) (item :: items)).1;
                settings := settings db' |})) as Hsave.
  { intros db'. unfold save_news_items.
    by destruct (foldl save_step (news_items db', 0) (item :: items)). }
  rewrite !Hsave. cbn [fst snd news_items settings].
  rewrite (save_loop_all_blocked (item :: items)); [done|].
  intros it Hit. apply save_loop_blocks, Hit.
Qed.

(** C6. Saving a batch changes no stored row: the table afterwards is the
    table before followed by the rows added, none of which has a stored
    title, so the rows that hold the title of a skipped item are the ones
    stored before, and titles that were unique stay unique.  The settings are
    untouched, and the call returns a count. *)
Theorem save_news_items_frame (env : db_env) (db : database) (items : list NewsItem) :
  let result := save_news_items env db items in
  (∃ added, news_items result.2 = news_items db ++ added ∧
     ∀ row, row ∈ added → row_title row ∉ row_title <$> news_items db) ∧
  (∀ i row, news_items db !! i = Some row → news_items result.2 !! i = Some row) ∧
  (∀ item, item ∈ items → title item ∈ row_title <$> news_items db →
     filter (λ row, row_title row = title item) (news_items result.2) =
     filter (λ row, row_title row = title item) (news_items db)) ∧
  (NoDup (row_title <$> news_items db) →
     NoDup (row_title <$> news_items result.2)) ∧
  settings result.2 = settings db ∧
  (env = Ready → ∃ saved_count, result.1 = Return saved_count).
Proof.
  intros result.
  assert (∃ added, news_items result.2 = news_items db ++ added ∧
            settings result.2 = settings db ∧
            NoDup (row_title <$> added) ∧
            ∀ row, row ∈ added → row_title row ∉ row_title <$> news_items db)
    as (added & Hrows & Hsettings & Hnodup & Hnew).
  { subst result. destruct (decide (env = Ready)) as [->|Hne].
    - destruct (save_news_items_ready db items) as (added & -> & ? & _ & Hadded).
      exists added. repeat (split; [done|]). intros row Hrow.
      by destruct (Hadded row Hrow).
    - rewrite save_news_items_not_ready by done.
      exists []. rewrite app_nil_r. repeat (split; [done|]).
      split; [constructor|]. by intros ? ?%elem_of_nil. }
  split; [by exists added|].
  split; [intros i row Hi; rewrite Hrows; by apply lookup_app_l_Some|].
  split.
  { intros item _ Hstored. rewrite Hrows, filter_app.
    rewrite (filter_none _ added); [by rewrite app_nil_r|].
    intros row Hrow Ht. apply (Hnew row Hrow). by rewrite Ht. }
  split; [intros Hnd; rewrite Hrows; by apply NoDup_titles_app|].
  split; [done|].
  intros ->. subst result.
  destruct (save_news_items_ready db items) as (added' & -> & _). eauto.
Qed.

Lemma save_news_items_frame_witness :
  let stored := mkRow "s_1_1" "A" "http://a" "s" 1 "AI" 1 in
  let db := {| news_items := [stored]; settings := ∅ |} in
  let items := [ mkNewsItem "t_2_2" "A" "http://other" "t" 2 "科技" false;
                 mkNewsItem "t_2_3" "B" "http://b" "t" 2 "科技" false ] in
  news_items (save_news_items Ready db items).2 !! 0 = Some stored ∧
  NoDup (row_title <$> news_items (save_news_items Ready db items).2) ∧
  ∃ saved_count, (save_news_items Ready db items).1 = Return saved_count.
Proof.
  intros stored db items.
  destruct (save_news_items_frame Ready db items) as (_ & Hkept & _ & Hnodup & _ & Hret).
  split; [by apply Hkept|].
  split; [|by apply Hret].
  apply Hnodup. apply NoDup_singleton.
Defined.

(** When no insert hits the primary key, the loop inserts the first
    occurrence of every title that is not stored. *)
Lemma save_loop_first_occurrences items rows n pre :
  (∀ t, t ∈ row_title <$> rows ↔ t ∈ title <$> pre) →
  (∀ item, item ∈ items → title item ∉ title <$> pre →
     id item ∉ row_id <$> rows) →
  (∀ a b, a ∈ items → b ∈ items → id a = id b → title a = title b) →
  foldl save_step (rows, n) items =
    (rows ++ (row_of_item <$> first_occurrences_after pre items),
     n + length (first_occurrences_after pre items)).
Proof.
  revert rows n pre.
  induction items as [|x items IH]; intros rows n pre Htitles Hids Hpair.
  - rewrite first_occurrences_after_nil. simpl.
    by rewrite app_nil_r, Nat.add_0_r.
  - rewrite first_occurrences_after_cons. cbn [foldl]. simpl.
    assert (∀ a b, a ∈ items → b ∈ items → id a = id b → title a = title b)
      as Hpair' by (intros a b ? ?; apply Hpair; by right).
    destruct (decide (title x ∈ row_title <$> rows)) as [Hin|Hnotin].
    + rewrite bool_decide_eq_true_2 by done.
      rewrite (bool_decide_eq_true_2 (title x ∈ title <$> pre))
        by by apply Htitles.
      simpl. apply IH; [| |done].
      * intros t. rewrite Htitles, fmap_app, elem_of_app. simpl.
        rewrite list_elem_of_singleton. split; [by left|].
        intros [?| ->]; [done|]. by apply Htitles.
      * intros item Hitem Hnew. apply Hids; [by right|].
        intros ?. apply Hnew. rewrite fmap_app, elem_of_app. by left.
    + rewrite bool_decide_eq_false_2 by done.
      rewrite (bool_decide_eq_false_2 (title x ∈ title <$> pre))
        by by rewrite <-Htitles.
      unfold insert_row. rewrite bool_decide_eq_false_2.
      2:{ apply Hids; [by left|]. by rewrite <-Htitles. }
      rewrite (IH _ _ (pre ++ [x])); [| | |done].
      * simpl. rewrite <-app_assoc. simpl. f_equal. lia.
      * intros t. rewrite !fmap_app, !elem_of_app, Htitles. simpl.
        by rewrite !list_elem_of_singleton.
      * intros item Hitem Hnew.
        rewrite fmap_app, elem_of_app in Hnew. simpl in Hnew.
        rewrite list_elem_of_singleton in Hnew.
        rewrite fmap_app, elem_of_app. simpl. rewrite list_elem_of_singleton.
        intros [Hstored|Hsame].
        -- revert Hstored. apply Hids; [by right|tauto].
        -- apply Hnew. right. apply Hpair; [by right|by left|done].
Qed.

(** C9, as amended.  Within one call at most one row per title is inserted,
    none for a stored title, so unique titles stay unique and the count is
    the number of distinct titles inserted.  The row inserted for a title is
    that of its first occurrence in the batch whenever no insert of the
    batch is rejected by the primary key [id]. *)
Theorem save_news_items_batch_duplicates (db : database) (items : list NewsItem) :
  let result := save_news_items Ready db items in
  let added := inserted_rows db items in
  news_items result.2 = news_items db ++ added ∧
  result.1 = Return (length added) ∧
  NoDup (row_title <$> added) ∧
  (∀ row, row ∈ added →
     (row_title row ∉ row_title <$> news_items db) ∧
     ∃ item, item ∈ items ∧ row = row_of_item item) ∧
  (NoDup (row_title <$> news_items db) →
     NoDup (row_title <$> news_items result.2)) ∧
  (no_id_clash db items → inserts_first_occurrences db items).
Proof.
  intros result added.
  destruct (save_news_items_ready db items) as (added' & Hsave & Hnt & _ & Hnew).
  assert (added = added') as ->.
  { subst added. unfold inserted_rows. rewrite Hsave. simpl.
    by rewrite drop_app_length. }
  subst result. rewrite Hsave. simpl.
  split; [done|]. split; [done|]. split; [done|].
  split; [intros row Hrow; destruct (Hnew row Hrow) as (? & _ & ?); by split|].
  split.
  { intros Hnd. apply NoDup_titles_app; [done..|].
    intros row Hrow. by destruct (Hnew row Hrow). }
  intros [Hids Hpair]. unfold inserts_first_occurrences, inserted_rows.
  destruct items as [|item items]; [by rewrite drop_ge|].
  unfold save_news_items.
  rewrite (save_loop_first_occurrences _ _ _ (item_of_row <$> news_items db)).
  - simpl. by rewrite drop_app_length.
  - intros t. by rewrite <-list_fmap_compose.
  - intros it Hit Hnew'. apply Hids; [done|].
    by rewrite <-list_fmap_compose in Hnew'.
  - done.
Qed.

Lemma save_news_items_batch_duplicates_witness :
  let db := {| news_items := [mkRow "s_1_1" "T" "http://t" "s" 1 "AI" 0];
               settings := ∅ |} in
  let A1 := mkNewsItem "s_2_1" "A" "http://first" "s" 2 "AI" false in
  let A2 := mkNewsItem "t_2_1" "A" "http://second" "t" 3 "AI" false in
  inserted_rows db [A1; A2] = [row_of_item A1] ∧
  NoDup (row_title <$> news_items (save_news_items Ready db [A1; A2]).2).
Proof.
  intros db A1 A2.
  destruct (save_news_items_batch_duplicates db [A1; A2])
    as (_ & _ & _ & _ & Hnodup & Hfirst).
  split.
  - rewrite Hfirst; [vm_compute; reflexivity|].
    split.
    + intros item Hitem _.
      apply elem_of_cons in Hitem as [->|Hitem];
        [|apply list_elem_of_singleton in Hitem as ->];
        simpl; intros Hid%list_elem_of_singleton; discriminate Hid.
    + intros a b Ha Hb Hid.
      apply elem_of_cons in Ha as [->|Ha];
        [|apply list_elem_of_singleton in Ha as ->];
        (apply elem_of_cons in Hb as [->|Hb];
          [|apply list_elem_of_singleton in Hb as ->]);
        first [reflexivity | discriminate Hid].
  - apply Hnodup. apply NoDup_singleton.
Defined.

(** The batch [A1; A2] shares the title "A"; [A1] carries the id of a stored
    row, so its insert is rejected and the later [A2] is the one inserted. *)
Lemma save_news_items_later_duplicate_inserted :
  let db := {| news_items := [mkRow "s_1_1" "T" "http://t" "s" 1 "AI" 0];
               settings := ∅ |} in
  let A1 := mkNewsItem "s_1_1" "A" "http://first" "s" 2 "AI" false in
  let A2 := mkNewsItem "t_2_1" "A" "http://second" "t" 3 "AI" false in
  title A1 = title A2 ∧
  save_news_items Ready db [A1; A2] =
    (Return 1, {| news_items := news_items db ++ [row_of_item A2]; settings := ∅ |}) ∧
  ¬ inserts_first_occurrences db [A1; A2].
Proof.
  intros db A1 A2. split; [done|]. split; [by vm_compute|].
  unfold inserts_first_occurrences. intros Heq.
  vm_compute in Heq. discriminate Heq.
Qed.

(** ** Marking as read *)

Lemma update_is_read_ids news_id rows :
  row_id <$> update_is_read news_id rows = row_id <$> rows.
Proof.
  unfold update_is_read. rewrite <-list_fmap_compose.
  apply list_fmap_ext. intros _ row _. simpl. by case_bool_decide.
Qed.

Lemma update_is_read_unknown news_id rows :
  news_id ∉ row_id <$> rows → update_is_read news_id rows = rows.
Proof.
  intros Hnew. unfold update_is_read.
  rewrite <-(list_fmap_id rows) at 2. apply list_fmap_ext.
  intros _ row Hrow%list_elem_of_lookup_2. simpl.
  rewrite bool_decide_eq_false_2; [done|].
  intros <-. apply Hnew. by apply list_elem_of_fmap_2.
Qed.

Lemma elem_of_update_is_read news_id rows row' :
  row' ∈ update_is_read news_id rows →
  ∃ row, row ∈ rows ∧ row_id row' = row_id row ∧
    (row_id row = news_id → row_is_read row' = 1%Z) ∧
    (row_id row ≠ news_id → row' = row).
Proof.
  unfold update_is_read. intros (row & -> & Hrow)%list_elem_of_fmap.
  exists row. split; [done|]. by case_bool_decide.
Qed.

Lemma marked_read_update news_id rows :
  news_id ∈ row_id <$> rows → marked_read news_id (update_is_read news_id rows).
Proof.
  intros Hin. split; [by rewrite update_is_read_ids|].
  intros row' (row & _ & Hid & Hset & _)%elem_of_update_is_read Hrow'.
  rewrite Hset; [done|congruence].
Qed.

Lemma marked_read_run_call news_id db c :
  marked_read news_id (news_items db) →
  marked_read news_id (news_items (run_call db c)).
Proof.
  intros [Hin Hread]. destruct c as [env [items|other_id|key value]];
    unfold run_call; cbn [fst snd].
  - destruct (decide (env = Ready)) as [->|Hne];
      [|by rewrite save_news_items_not_ready].
    destruct (save_news_items_ready db items) as (added & -> & _ & _ & Hnew).
    simpl. split.
    + rewrite fmap_app, elem_of_app. by left.
    + intros row [Hold|Hadded]%elem_of_app Hid; [by apply Hread|].
      destruct (Hnew row Hadded) as (_ & Hfresh & _). by rewrite Hid in Hfresh.
  - destruct env; [|done..]. simpl. split.
    + by rewrite update_is_read_ids.
    + intros row' (row & Hrow & Hid & Hset & Hsame)%elem_of_update_is_read Hrow'.
      destruct (decide (row_id row = other_id)) as [Heq|Hne].
      * by rewrite Hset.
      * rewrite Hsame by done. apply Hread; [done|congruence].
  - destruct env; [|done..]. simpl. by destruct (json_dumps value).
Qed.

Lemma marked_read_run_calls news_id db calls :
  marked_read news_id (news_items db) →
  marked_read news_id (news_items (run_calls db calls)).
Proof.
  revert db. induction calls as [|c calls IH]; intros db Hm; [done|].
  apply IH. by apply marked_read_run_call.
Qed.

Lemma elem_of_take_limit {A} limit (l : list A) x :
  x ∈ take_limit limit l → x ∈ l.
Proof.
  unfold take_limit. case_match; [done|].
  intros (i & Hi & _)%elem_of_take. by eapply list_elem_of_lookup_2.
Qed.

Lemma get_unread_news_unread env db limit unread item :
  get_unread_news env db limit = Return unread →
  item ∈ unread →
  ∃ row, row ∈ news_items db ∧ row_is_read row = 0%Z ∧ item = item_of_row row.
Proof.
  destruct env; simpl; intros [= <-]; [|by intros ?%elem_of_nil].
  intros (row & -> & Hrow%elem_of_take_limit)%list_elem_of_fmap.
  rewrite sort_desc_perm in Hrow.
  apply list_elem_of_filter in Hrow as [? ?]. by exists row.
Qed.

Lemma marked_read_not_unread news_id env db limit unread :
  marked_read news_id (news_items db) →
  get_unread_news env db limit = Return unread →
  news_id ∉ id <$> unread.
Proof.
  intros [_ Hread] Hget (item & -> & Hitem)%list_elem_of_fmap.
  destruct (get_unread_news_unread _ _ _ _ _ Hget Hitem) as (row & Hrow & H0 & ->).
  by apply (Hread row).
Qed.

(** C1, as amended.  On an id that is not stored, [mark_as_read] returns
    [True] and leaves the storage as it was.  On the id of a stored unread
    item it returns [True], and after it no call of [get_unread_news] returns
    an item of that id, whatever calls come in between. *)
Theorem mark_as_read_spec (db : database) (news_id : string) :
  (news_id ∉ row_id <$> news_items db →
     mark_as_read Ready db news_id = (Return true, db)) ∧
  (∀ row, row ∈ news_items db → row_id row = news_id → row_is_read row = 0%Z →
     (mark_as_read Ready db news_id).1 = Return true ∧
     ∀ calls env limit unread,
       get_unread_news env
         (run_calls (mark_as_read Ready db news_id).2 calls) limit = Return unread →
       news_id ∉ id <$> unread).
Proof.
  split.
  - intros Hnew. unfold mark_as_read.
    rewrite update_is_read_unknown by done. by destruct db.
  - intros row Hrow Hid _. split; [done|].
    intros calls env limit unread Hget.
    eapply marked_read_not_unread; [|exact Hget].
    apply marked_read_run_calls. simpl. apply marked_read_update.
    rewrite <-Hid. by apply list_elem_of_fmap_2.
Qed.

Lemma mark_as_read_spec_witness :
  let unread_row := mkRow "s_1_1" "A" "http://a" "s" 1 "AI" 0 in
  let db := {| news_items := [unread_row]; settings := ∅ |} in
  let again := mkNewsItem "s_1_1" "B" "http://b" "s" 2 "AI" false in
  let other := mkNewsItem "s_1_3" "C" "http://c" "s" 3 "AI" false in
  let calls := [(Ready, SaveNewsItems [again; other]); (Failing, MarkAsRead "s_1_3")] in
  mark_as_read Ready db "ghost" = (Return true, db) ∧
  (mark_as_read Ready db "s_1_1").1 = Return true ∧
  get_unread_news Ready (run_calls (mark_as_read Ready db "s_1_1").2 calls) 10 =
    Return [other] ∧
  "s_1_1" ∉ id <$> [other].
Proof.
  intros unread_row db again other calls.
  split.
  - apply (proj1 (mark_as_read_spec db "ghost")).
    simpl. intros Hin%list_elem_of_singleton. discriminate Hin.
  - destruct (proj2 (mark_as_read_spec db "s_1_1") unread_row) as [Hret Hgone].
    + by left.
    + reflexivity.
    + reflexivity.
    + split; [exact Hret|]. split; [vm_compute; reflexivity|].
      apply (Hgone calls Ready 10%Z). vm_compute. reflexivity.
Defined.

(** [mark_as_read] on an id that is not stored returns [True], not [False]. *)
Lemma mark_as_read_unknown_id_returns_true :
  let db := {| news_items := [mkRow "s_1_1" "A" "http://a" "s" 1 "AI" 0];
               settings := ∅ |} in
  ("ghost" ∉ row_id <$> news_items db) ∧
  mark_as_read Ready db "ghost" = (Return true, db) ∧
  (mark_as_read Ready db "ghost").1 ≠ Return false.
Proof.
  intros db. split; [|split].
  - simpl. intros Hin%list_elem_of_singleton. discriminate Hin.
  - by vm_compute.
  - by vm_compute.
Qed.

(** C10. [mark_as_read] keeps the number and order of the rows and the
    settings; a row of another id is unchanged, and a row of the given id
    keeps its id, title, link, source, published time and category. *)
Theorem mark_as_read_frame (env : db_env) (db : database) (news_id : string) :
  let db' := (mark_as_read env db news_id).2 in
  settings db' = settings db ∧
  length (news_items db') = length (news_items db) ∧
  ∀ i row, news_items db !! i = Some row →
    ∃ row', news_items db' !! i = Some row' ∧
      (row_id row ≠ news_id → row' = row) ∧
      row_id row' = row_id row ∧
      row_title row' = row_title row ∧
      row_link row' = row_link row ∧
      row_source row' = row_source row ∧
      row_published_time row' = row_published_time row ∧
      row_category row' = row_category row.
Proof.
  destruct env; cbn zeta; simpl.
  - split; [done|]. split; [unfold update_is_read; by rewrite length_fmap|].
    intros i row Hi. unfold update_is_read. rewrite list_lookup_fmap, Hi. simpl.
    eexists. split; [done|]. by case_bool_decide.
  - split; [done|]. split; [done|]. intros i row Hi. by exists row.
  - split; [done|]. split; [done|]. intros i row Hi. by exists row.
Qed.

Lemma mark_as_read_frame_witness :
  let first := mkRow "s_1_1" "A" "http://a" "s" 1 "AI" 0 in
  let second := mkRow "s_1_2" "B" "http://b" "s" 2 "科技" 0 in
  let db := {| news_items := [first; second]; settings := ∅ |} in
  news_items (mark_as_read Ready db "s_1_1").2 !! 1 = Some second ∧
  ∃ row', news_items (mark_as_read Ready db "s_1_1").2 !! 0 = Some row' ∧
          row_title row' = "A" ∧ row_category row' = "AI".
Proof.
  intros first second db.
  destruct (mark_as_read_frame Ready db "s_1_1") as (_ & _ & Hrows).
  split.
  - destruct (Hrows 1 second eq_refl) as (row' & -> & Hsame & _).
    f_equal. apply Hsame. discriminate.
  - destruct (Hrows 0 first eq_refl) as (row' & Hrow' & _ & _ & Ht & _ & _ & _ & Hc).
    exists row'. by rewrite Ht, Hc.
Defined.

(** ** Settings *)

Lemma pyval_ind_nested (P : pyval → Prop) :
  P PyNone → (∀ b, P (PyBool b)) → (∀ z, P (PyInt z)) → (∀ s, P (PyStr s)) →
  (∀ l, Forall P l → P (PyList l)) →
  (∀ l, Forall P l → P (PyTuple l)) →
  (∀ d, Forall (λ kv, P kv.2) d → P (PyDict d)) →
  P PyObject →
  ∀ v, P v.
Proof.
  intros HNone HBool HInt HStr HList HTuple HDict HObject.
  fix IH 1. intros [|b|z|s|l|l|d|].
  - exact HNone.
  - apply HBool.
  - apply HInt.
  - apply HStr.
  - apply HList. induction l as [|x l IHl]; constructor; [apply IH|exact IHl].
  - apply HTuple. induction l as [|x l IHl]; constructor; [apply IH|exact IHl].
  - apply HDict. induction d as [|[k x] d IHd]; constructor; [apply IH|exact IHd].
  - exact HObject.
Qed.

Lemma dict_set_new k v d :
  k ∉ d.*1 → dict_set k v d = d ++ [(k, v)].
Proof.
  induction d as [|[k' v'] d IH]; simpl; [done|].
  rewrite not_elem_of_cons. intros [Hne Hnotin].
  rewrite bool_decide_eq_false_2 by done. by rewrite IH.
Qed.

Lemma dict_of_pairs_acc (acc pairs : list (pykey * pyval)) :
  NoDup (acc ++ pairs).*1 →
  foldl (λ d kv, dict_set kv.1 kv.2 d) acc pairs = acc ++ pairs.
Proof.
  revert acc. induction pairs as [|[k v] pairs IH]; intros acc Hnd; simpl.
  - by rewrite app_nil_r.
  - rewrite dict_set_new.
    + rewrite IH; rewrite <-app_assoc; done.
    + rewrite fmap_app in Hnd. apply NoDup_app in Hnd as (_ & Hdisj & _).
      intros Hin. apply (Hdisj k Hin). simpl. by left.
Qed.

Lemma dict_of_pairs_nodup (d : list (pykey * pyval)) :
  NoDup d.*1 → dict_of_pairs d = d.
Proof. intros Hnd. unfold dict_of_pairs. by rewrite dict_of_pairs_acc. Qed.

(** On the values JSON has a shape for, [json.loads] undoes [json.dumps]. *)
Lemma json_round_trip v :
  json_shaped v = true → ∃ j, json_dumps v = Some j ∧ json_loads j = v.
Proof.
  induction v as [|b|z|s|l IHl|l IHl|d IHd|] using pyval_ind_nested;
    simpl; intros Hshaped; try done; try (eexists; split; reflexivity).
  - assert (∃ js, dumps_all json_dumps l = Some js ∧ map json_loads js = l)
      as (js & -> & Hjs).
    { induction IHl as [|x l Hx _ IH]; simpl in *; [by exists []|].
      apply andb_true_iff in Hshaped as [Hx' Hl'].
      destruct (Hx Hx') as (j & -> & Hj).
      destruct (IH Hl') as (js & -> & Hjs).
      exists (j :: js). simpl. by rewrite Hj, Hjs. }
    eexists. split; [done|]. simpl. by rewrite Hjs.
  - apply andb_true_iff in Hshaped as [Hnd%bool_decide_eq_true Hitems].
    assert (∃ ms, dumps_items json_dumps d = Some ms ∧
                  map (λ m, (KStr m.1, json_loads m.2)) ms = d)
      as (ms & -> & Hms).
    { clear Hnd. induction IHd as [|[k x] d Hx _ IH]; simpl in *; [by exists []|].
      apply andb_true_iff in Hitems as [Hx' Hd'].
      destruct k as [s| | |]; try done.
      destruct (Hx Hx') as (j & -> & Hj).
      destruct (IH Hd') as (ms & -> & Hms).
      exists ((s, j) :: ms). simpl. by rewrite Hj, Hms. }
    eexists. split; [done|]. simpl. rewrite Hms.
    by rewrite dict_of_pairs_nodup.
Qed.




(** When the file cannot be opened, [conn] is never bound and the [finally]
    clause raises in place of the degraded [return]. *)
Lemma get_setting_unopenable (db : database) (key : string) (default : pyval) :
  get_setting Unopenable db key default = Raise UnboundLocalError.
Proof. reflexivity. Qed.

(** ** Notification batches *)

Section NotifyFacts.
Context {D : Type} (delay : D) (started : nat → bool).

(** The count and the manager are those the specification describes,
    whatever the sleeps. *)
Lemma notify_loop_result total i items success_count m :
  (notify_loop total delay started i items success_count m).1 =
    (success_count + (notify_batch_spec delay started i items m).1.1,
     (notify_batch_spec delay started i items m).1.2).
Proof.
  revert i success_count m.
  induction items as [|item items IH]; intros i success_count m; simpl.
  - by rewrite Nat.add_0_r.
  - destruct (show_news_notification (started i) m item) as [[ok m'] shown].
    destruct ok.
    + specialize (IH (S i) (S success_count) m').
      destruct (notify_loop _ _ _ _ _ _ _) as [[n m''] trace].
      destruct (notify_batch_spec _ _ _ _ _) as [[n' m'''] trace'].
      simpl in *. injection IH as -> ->. f_equal. lia.
    + specialize (IH (S i) success_count m').
      destruct (notify_loop _ _ _ _ _ _ _) as [[n m''] trace].
      destruct (notify_batch_spec _ _ _ _ _) as [[n' m'''] trace'].
      simpl in *. by injection IH as -> ->.
Qed.

(** Sleeps apart, the loop does what the specification describes: every
    item is handled, in input order, whatever became of the ones before. *)
Lemma notify_loop_attempts total i items success_count m :
  filter (λ e, ¬ is_sleep e)
    (notify_loop total delay started i items success_count m).2 =
  filter (λ e, ¬ is_sleep e) (notify_batch_spec delay started i items m).2.
Proof.
  revert i success_count m.
  induction items as [|item items IH]; intros i success_count m; simpl; [done|].
  destruct (show_news_notification (started i) m item) as [[ok m'] shown].
  destruct ok.
  - specialize (IH (S i) (S success_count) m').
    destruct (notify_loop _ _ _ _ _ _ _) as [[n m2] trace].
    destruct (notify_batch_spec _ _ _ _ _) as [[n' m2'] trace'].
    simpl in *. rewrite !filter_app, IH. do 2 f_equal.
    repeat case_bool_decide; by rewrite ?filter_nil, ?filter_cons_False by auto.
  - specialize (IH (S i) success_count m').
    destruct (notify_loop _ _ _ _ _ _ _) as [[n m2] trace].
    destruct (notify_batch_spec _ _ _ _ _) as [[n' m2'] trace'].
    simpl in *. by rewrite !filter_app, IH.
Qed.

(** While no dispatch has failed, the loop sleeps exactly between items. *)
Lemma notify_loop_all_started total i items success_count m :
  available m = true →
  (∀ k, started k = true) →
  total = success_count + length items →
  notify_loop total delay started i items success_count m =
    (success_count + (notify_batch_spec delay started i items m).1.1,
     (notify_batch_spec delay started i items m).1.2,
     (notify_batch_spec delay started i items m).2).
Proof.
  intros Havail Hstarted.
  revert i success_count m Havail.
  induction items as [|item items IH]; intros i success_count m Havail Htotal;
    simpl.
  - by rewrite Nat.add_0_r.
  - unfold show_news_notification. rewrite Havail, Hstarted. simpl.
    rewrite IH; [|done|simpl in Htotal; lia].
    destruct (notify_batch_spec _ _ _ _ _) as [[n' m'''] trace'].
    simpl. f_equal; [f_equal; lia|]. do 2 f_equal.
    destruct items as [|item' items'].
    + rewrite bool_decide_eq_false_2 by (simpl in Htotal; lia).
      by rewrite bool_decide_eq_false_2 by auto.
    + rewrite bool_decide_eq_true_2 by (simpl in Htotal; lia).
      by rewrite bool_decide_eq_true_2.
Qed.

Lemma show_multiple_all_started m news_items :
  available m = true →
  (∀ k, started k = true) →
  show_multiple_news_notifications started m news_items delay =
    notify_batch_spec delay started 0 news_items m.
Proof.
  intros Havail Hstarted. destruct news_items as [|item items]; [done|].
  unfold show_multiple_news_notifications.
  rewrite notify_loop_all_started by done.
  by destruct (notify_batch_spec _ _ _ _ _) as [[n m'] trace].
Qed.
End NotifyFacts.

(** C8, at the input where the code departs from it.  Two items, the thread
    of the first fails to start and the second is shown: the count is 1 and
    both items are handled in order, but [success_count < len(news_items)]
    still holds after the last item, so the call sleeps after it; the
    specification has no sleep there. *)
Theorem show_multiple_sleeps_after_last (D : Type) (delay : D) :
  let m := {| available := true; active_notifications := ∅ |} in
  let first := mkNewsItem "s_1_1" "A" "http://a" "s" 1 "AI" false in
  let second := mkNewsItem "s_1_2" "B" "http://b" "s" 2 "AI" false in
  let started := λ i : nat, bool_decide (i ≠ 0) in
  (show_multiple_news_notifications started m [first; second] delay).1.1 = 1 ∧
  (show_multiple_news_notifications started m [first; second] delay).2 =
    [NotShown first; Toast "s - AI" "B"; Sleep delay] ∧
  (notify_batch_spec delay started 0 [first; second] m).2 =
    [NotShown first; Toast "s - AI" "B"].
Proof. intros m first second started. by vm_compute. Qed.

(** * Further properties of the code *)

(** ** Reading news back *)

Section SortMore.
Context {A : Type} (key : A → Z).

Lemma insert_desc_head x l :
  Forall (λ y, (key y ≤ key x)%Z) l → insert_desc key x l = x :: l.
Proof.
  destruct 1 as [|y l Hy _]; simpl; [done|].
  by rewrite (proj2 (Z.leb_le _ _) Hy).
Qed.

Lemma insert_desc_filter (P : A → Prop) `{∀ a, Decision (P a)} x l :
  StronglySorted (λ a b, (key b ≤ key a)%Z) l →
  filter P (insert_desc key x l) =
    if decide (P x) then insert_desc key x (filter P l) else filter P l.
Proof.
  induction 1 as [|y l Hl IH Hy]; simpl.
  - rewrite filter_cons, filter_nil. by case_decide.
  - destruct (Z.leb_spec (key y) (key x)) as [Hle|Hgt].
    + rewrite filter_cons. case_decide; [|done].
      rewrite insert_desc_head; [done|].
      apply Forall_forall. intros z [_ Hz]%list_elem_of_filter.
      apply elem_of_cons in Hz as [->|Hz]; [done|].
      eapply Forall_forall in Hy; [|exact Hz]. simpl in Hy. lia.
    + rewrite !(filter_cons _ y), IH.
      destruct (decide (P y)), (decide (P x)); simpl; try done.
      by rewrite (proj2 (Z.leb_gt _ _) Hgt).
Qed.

(** Sorting and selecting commute: the sort is stable. *)
Lemma sort_desc_filter (P : A → Prop) `{∀ a, Decision (P a)} l :
  filter P (sort_desc key l) = sort_desc key (filter P l).
Proof.
  induction l as [|x l IH]; simpl; [done|].
  rewrite insert_desc_filter by apply sort_desc_sorted.
  rewrite filter_cons, IH. by case_decide.
Qed.

Lemma sorted_take_drop n l x y :
  StronglySorted (λ a b, (key b ≤ key a)%Z) l →
  x ∈ take n l → y ∈ drop n l → (key y ≤ key x)%Z.
Proof.
  intros Hsorted Hx Hy. rewrite <-(take_drop n l) in Hsorted.
  by apply (StronglySorted_app_1_elem_of _ _ _ x y) in Hsorted.
Qed.
End SortMore.

Lemma item_of_row_of_item item : item_of_row (row_of_item item) = item.
Proof. by destruct item as [? ? ? ? ? ? []]. Qed.


Lemma filter_fmap_item_of_row (P : NewsItem → Prop) `{∀ it, Decision (P it)}
    (rows : list Row) :
  filter P (item_of_row <$> rows) =
    item_of_row <$> filter (λ row, P (item_of_row row)) rows.
Proof.
  induction rows as [|row rows IH]; [done|].
  rewrite fmap_cons, !filter_cons, IH. by case_decide.
Qed.





(** X3. Saving and reading back: when no insert of the batch is rejected by
    the primary key, reading every row back after [save_news_items] returns
    the items stored before together with the first occurrence of every new
    title of the batch, each with the fields it was saved with. *)
Theorem save_then_get_latest (db : database) (items : list NewsItem) :
  no_id_clash db items →
  ∃ latest,
    get_latest_news Ready (save_news_items Ready db items).2 (-1) = Return latest ∧
    latest ≡ₚ (item_of_row <$> news_items db) ++
              first_occurrences_after (item_of_row <$> news_items db) items.
Proof.
  intros [Hids Hpair]. eexists. split; [reflexivity|].
  unfold take_limit. simpl. rewrite sort_desc_perm.
  assert (news_items (save_news_items Ready db items).2 =
            news_items db ++
            (row_of_item <$>
               first_occurrences_after (item_of_row <$> news_items db) items))
    as ->.
  { destruct items as [|item items]; [by rewrite app_nil_r|].
    unfold save_news_items.
    rewrite (save_loop_first_occurrences _ _ _ (item_of_row <$> news_items db));
      [done| | |done].
    - intros t. by rewrite <-list_fmap_compose.
    - intros it Hit Hnew. apply Hids; [done|].
      by rewrite <-list_fmap_compose in Hnew. }
  rewrite fmap_app. f_equiv.
  induction (first_occurrences_after _ items) as [|it l IH]; [done|].
  by rewrite !fmap_cons, item_of_row_of_item, IH.
Qed.

Lemma save_then_get_latest_witness :
  let db := {| news_items := [mkRow "s_1_1" "T" "http://t" "s" 1 "AI" 0];
               settings := ∅ |} in
  let A1 := mkNewsItem "s_2_1" "A" "http://first" "s" 2 "AI" true in
  let A2 := mkNewsItem "t_2_1" "A" "http://second" "t" 3 "AI" false in
  ∃ latest,
    get_latest_news Ready (save_news_items Ready db [A1; A2]).2 (-1) = Return latest ∧
    A1 ∈ latest.
Proof.
  intros db A1 A2.
  destruct (save_then_get_latest db [A1; A2]) as (latest & Hget & Hperm).
  - split.
    + intros item Hitem _.
      apply elem_of_cons in Hitem as [->|Hitem];
        [|apply list_elem_of_singleton in Hitem as ->];
        simpl; intros Hid%list_elem_of_singleton; discriminate Hid.
    + intros a b Ha Hb Hid.
      apply elem_of_cons in Ha as [->|Ha];
        [|apply list_elem_of_singleton in Ha as ->];
        (apply elem_of_cons in Hb as [->|Hb];
          [|apply list_elem_of_singleton in Hb as ->]);
        first [reflexivity | discriminate Hid].
  - exists latest. split; [done|]. rewrite Hperm.
    apply elem_of_app. right. vm_compute. left.
Defined.

Lemma update_is_read_twice i j rows :
  update_is_read j (update_is_read i rows) =
    (λ row, if bool_decide (row_id row = i ∨ row_id row = j)
            then set_is_read row else row) <$> rows.
Proof.
  unfold update_is_read. rewrite <-list_fmap_compose.
  apply list_fmap_ext. intros _ row _. simpl.
  destruct (decide (row_id row = i)) as [Hi|Hi],
           (decide (row_id row = j)) as [Hj|Hj].
  - rewrite (bool_decide_eq_true_2 (row_id row = i)) by done. simpl.
    rewrite (bool_decide_eq_true_2 (row_id row = j)) by done.
    by rewrite bool_decide_eq_true_2 by auto.
  - rewrite (bool_decide_eq_true_2 (row_id row = i)) by done. simpl.
    rewrite (bool_decide_eq_false_2 (row_id row = j)) by done.
    by rewrite bool_decide_eq_true_2 by auto.
  - rewrite (bool_decide_eq_false_2 (row_id row = i)) by done.
    rewrite (bool_decide_eq_true_2 (row_id row = j)) by done.
    by rewrite bool_decide_eq_true_2 by auto.
  - rewrite (bool_decide_eq_false_2 (row_id row = i)) by done.
    rewrite (bool_decide_eq_false_2 (row_id row = j)) by done.
    by rewrite bool_decide_eq_false_2 by tauto.
Qed.

(** X4. Marking is idempotent, and marking two items gives the same storage
    in either order. *)
Theorem mark_as_read_idempotent_commutes (env : db_env) (db : database)
    (i j : string) :
  (mark_as_read env (mark_as_read env db i).2 i).2 = (mark_as_read env db i).2 ∧
  (mark_as_read env (mark_as_read env db i).2 j).2 =
    (mark_as_read env (mark_as_read env db j).2 i).2.
Proof.
  destruct env; simpl; [|done..].
  rewrite !update_is_read_twice. split; f_equal.
  - apply list_fmap_ext. intros _ row _. simpl.
    destruct (decide (row_id row = i)).
    + by rewrite !bool_decide_eq_true_2 by auto.
    + by rewrite !bool_decide_eq_false_2 by tauto.
  - apply list_fmap_ext. intros _ row _. simpl.
    destruct (decide (row_id row = i ∨ row_id row = j)).
    + by rewrite !bool_decide_eq_true_2 by tauto.
    + by rewrite !bool_decide_eq_false_2 by tauto.
Qed.

Lemma filter_unread_update i rows :
  filter (λ row, row_is_read row = 0%Z) (update_is_read i rows) =
    filter (λ row, row_id row ≠ i)
      (filter (λ row, row_is_read row = 0%Z) rows).
Proof.
  unfold update_is_read. induction rows as [|row rows IH]; [done|].
  rewrite fmap_cons, !filter_cons, IH.
  destruct (decide (row_id row = i)) as [Hi|Hi].
  - rewrite bool_decide_eq_true_2 by done. simpl.
    destruct (decide (row_is_read row = 0%Z)); [|done].
    by rewrite filter_cons_False by auto.
  - rewrite bool_decide_eq_false_2 by done.
    destruct (decide (row_is_read row = 0%Z)); [|done].
    by rewrite filter_cons_True by done.
Qed.

(** X5. What marking does to the unread list: the unread items after
    [mark_as_read] are the unread items before it, in the same order, without
    those of the marked id. *)
Theorem mark_as_read_removes_from_unread (db : database) (news_id : string) :
  ∃ before,
    get_unread_news Ready db (-1) = Return before ∧
    get_unread_news Ready (mark_as_read Ready db news_id).2 (-1) =
      Return (filter (λ item, id item ≠ news_id) before).
Proof.
  eexists. split; [reflexivity|].
  unfold get_unread_news, take_limit. simpl. f_equal.
  rewrite filter_unread_update, <-sort_desc_filter.
  by rewrite filter_fmap_item_of_row.
Qed.

(** ** Writing settings *)

(** [json.dumps] raises exactly on the values that hold a rejected object. *)
Lemma json_dumps_None v : json_dumps v = None ↔ has_object v = true.
Proof.
  induction v as [|b|z|s|l IHl|l IHl|d IHd|] using pyval_ind_nested;
    simpl; try (split; discriminate); try done.
  - rewrite fmap_None.
    induction IHl as [|x l Hx _ IH]; simpl; [split; discriminate|].
    rewrite orb_true_iff, <-Hx, <-IH.
    destruct (json_dumps x); simpl; [|tauto].
    destruct (dumps_all json_dumps l); simpl; split; try tauto; try discriminate.
    intros [|]; discriminate.
  - rewrite fmap_None.
    induction IHl as [|x l Hx _ IH]; simpl; [split; discriminate|].
    rewrite orb_true_iff, <-Hx, <-IH.
    destruct (json_dumps x); simpl; [|tauto].
    destruct (dumps_all json_dumps l); simpl; split; try tauto; try discriminate.
    intros [|]; discriminate.
  - rewrite fmap_None.
    induction IHd as [|[k x] d Hx _ IH]; simpl in *; [split; discriminate|].
    rewrite orb_true_iff, <-Hx, <-IH.
    destruct (json_dumps x); simpl; [|tauto].
    destruct (dumps_items json_dumps d); simpl; split; try tauto; try discriminate.
    intros [|]; discriminate.
Qed.

(** X6. [save_setting] is an upsert on its key alone: it never touches the
    news rows nor the setting of another key, so [get_setting] on another key
    returns what it returned before; when it returns [True] the key holds the
    JSON text of the value, and in every other case the storage is as it
    was. *)
Theorem save_setting_upsert (env : db_env) (db : database) (key : string)
    (value : pyval) :
  let result := save_setting env db key value in
  news_items result.2 = news_items db ∧
  (∀ other, other ≠ key → settings result.2 !! other = settings db !! other) ∧
  (∀ env' other default, other ≠ key →
     get_setting env' result.2 other default = get_setting env' db other default) ∧
  (result.1 = Return true →
     ∃ doc, json_dumps value = Some doc ∧ settings result.2 !! key = Some (Json doc)) ∧
  (result.1 ≠ Return true → result.2 = db).
Proof.
  intros result.
  assert (news_items result.2 = news_items db ∧
          (∀ other, other ≠ key → settings result.2 !! other = settings db !! other))
    as [Hnews Hother].
  { subst result. unfold save_setting.
    destruct env; [|done..]. destruct (json_dumps value); [|done].
    split; [done|]. intros other Hne. simpl.
    destruct (settings db !! key); by rewrite lookup_insert_ne. }
  split; [done|]. split; [done|].
  split.
  { intros env' other default Hne. unfold get_setting.
    by rewrite Hother. }
  subst result. unfold save_setting.
  destruct env; simpl; [|split; [discriminate|done]..].
  destruct (json_dumps value) as [doc|]; simpl; [|split; [discriminate|done]].
  split; [|done]. intros _. exists doc. split; [done|].
  destruct (settings db !! key); by rewrite lookup_insert_eq.
Qed.

Lemma save_setting_upsert_witness :
  let db := {| news_items := [mkRow "s_1_1" "A" "http://a" "s" 1 "AI" 0];
               settings := {[ "refresh_interval" := Json (JInt 15) ]} |} in
  get_setting Ready (save_setting Ready db "auto_start" (PyBool true)).2
    "refresh_interval" PyNone = Return (PyInt 15) ∧
  (save_setting Ready db "k" PyObject).2 = db ∧
  ∃ doc, settings (save_setting Ready db "auto_start" (PyBool true)).2 !! "auto_start"
           = Some (Json doc).
Proof.
  intros db.
  destruct (save_setting_upsert Ready db "auto_start" (PyBool true))
    as (_ & _ & Hget & Hset & _).
  destruct (save_setting_upsert Ready db "k" PyObject) as (_ & _ & _ & _ & Hsame).
  split; [|split].
  - rewrite Hget by discriminate. by vm_compute.
  - apply Hsame. vm_compute. discriminate.
  - destruct Hset as (doc & _ & Hdoc); [reflexivity|]. by exists doc.
Defined.

(** X7. A value that holds an object [json.dumps] rejects, at any depth, is
    not saved: [save_setting] returns [False], the storage is unchanged, and
    a value stored under the key before is still the one read. *)
Theorem save_setting_unserializable (db : database) (key : string)
    (value default : pyval) :
  has_object value = true →
  save_setting Ready db key value = (Return false, db) ∧
  get_setting Ready (save_setting Ready db key value).2 key default =
    get_setting Ready db key default.
Proof.
  intros Hobj%json_dumps_None. unfold save_setting. by rewrite Hobj.
Qed.

Lemma save_setting_unserializable_witness :
  let db := {| news_items := []; settings := {[ "k" := Json (JInt 1) ]} |} in
  let value := PyDict [(KStr "a", PyList [PyInt 1; PyObject])] in
  save_setting Ready db "k" value = (Return false, db) ∧
  get_setting Ready (save_setting Ready db "k" value).2 "k" PyNone = Return (PyInt 1).
Proof.
  intros db value.
  destruct (save_setting_unserializable db "k" value PyNone) as [Hsave Hget];
    [reflexivity|].
  split; [exact Hsave|]. rewrite Hget. by vm_compute.
Defined.

(** ** Items as dicts *)

(** X8. [from_dict] undoes [to_dict] on every item whose date text parses
    back; it raises exactly when one of the keys id, title, link, source,
    published_time is missing or the date does not parse; and a missing
    category or is_read is read as "AI/科技" or [False]. *)
Theorem from_dict_to_dict (isoformat : Z → string) (fromisoformat : string → option Z)
    (hash : string → Z) (t : Z) :
  (∀ item,
     fromisoformat (isoformat (published_time item)) = Some (published_time item) →
     from_dict fromisoformat hash t (to_dict isoformat item) = Some item) ∧
  (∀ data,
     from_dict fromisoformat hash t data = None ↔
       d_id data = None ∨ d_title data = None ∨ d_link data = None ∨
       d_source data = None ∨ d_published_time data = None ∨
       ∃ text, d_published_time data = Some text ∧ fromisoformat text = None) ∧
  (∀ data item,
     from_dict fromisoformat hash t data = Some item →
     Some (id item) = d_id data ∧ Some (title item) = d_title data ∧
     Some (link item) = d_link data ∧ Some (source item) = d_source data ∧
     category item = default "AI/科技" (d_category data) ∧
     is_read item = default false (d_is_read data)).
Proof.
  split; [|split].
  - intros [i ti li so pt ca rd] Hdate. unfold from_dict, to_dict. simpl in *.
    by rewrite Hdate.
  - intros [i ti li so pt ca rd]. unfold from_dict. simpl.
    destruct ti as [ti|]; simpl; [|split; [tauto|done]].
    destruct li as [li|]; simpl; [|split; [tauto|done]].
    destruct so as [so|]; simpl; [|split; [tauto|done]].
    destruct pt as [pt|]; simpl; [|split; [tauto|done]].
    destruct (fromisoformat pt) as [z|] eqn:Hpt; simpl.
    + destruct i as [i|]; simpl; [|split; [tauto|done]].
      split; [done|].
      intros [?|[?|[?|[?|[?|(text & [= <-] & Hnone)]]]]]; congruence.
    + split; [|done]. intros _. do 5 right. by exists pt.
  - intros [i ti li so pt ca rd] item. unfold from_dict. simpl.
    destruct ti as [ti|], li as [li|], so as [so|], pt as [pt|]; simpl; try done.
    destruct (fromisoformat pt); simpl; [|done].
    destruct i as [i|]; simpl; [|done].
    by intros [= <-].
Qed.

Lemma from_dict_to_dict_witness :
  let item := mkNewsItem "s_1_1" "A" "http://a" "s" 5 "AI" true in
  let isoformat := λ _ : Z, "0001-01-01T00:00:00.000005" in
  let fromisoformat := λ text : string,
    if bool_decide (text = "0001-01-01T00:00:00.000005") then Some 5%Z else None in
  from_dict fromisoformat (λ _, 0%Z) 100 (to_dict isoformat item) = Some item ∧
  ∃ back,
    from_dict fromisoformat (λ _, 0%Z) 100
      (mkItemDict (Some "i") (Some "A") (Some "l") (Some "s")
         (Some "0001-01-01T00:00:00.000005") None None) = Some back ∧
    category back = "AI/科技" ∧ is_read back = false.
Proof.
  intros item isoformat fromisoformat.
  destruct (from_dict_to_dict isoformat fromisoformat (λ _, 0%Z) 100)
    as (Hround & _ & Hfields).
  split; [by apply Hround|].
  exists (mkNewsItem "i" "A" "l" "s" 5 "AI/科技" false).
  assert (from_dict fromisoformat (λ _, 0%Z) 100
            (mkItemDict (Some "i") (Some "A") (Some "l") (Some "s")
               (Some "0001-01-01T00:00:00.000005") None None) =
          Some (mkNewsItem "i" "A" "l" "s" 5 "AI/科技" false)) as Hback
    by (vm_compute; reflexivity).
  split; [exact Hback|].
  destruct (Hfields _ _ Hback) as (_ & _ & _ & _ & Hc & Hr).
  split; [exact Hc|exact Hr].
Defined.

(** ** The refresh *)

Lemma filter_ext_in {A} (P Q : A → Prop) `{∀ a, Decision (P a)}
    `{∀ a, Decision (Q a)} (l : list A) :
  (∀ a, a ∈ l → P a ↔ Q a) → filter P l = filter Q l.
Proof.
  induction l as [|x l IH]; intros Hext; [done|].
  rewrite !filter_cons, IH by (intros a Ha; apply Hext; by right).
  destruct (decide (P x)) as [HP|HP], (decide (Q x)) as [HQ|HQ]; try done;
    exfalso; apply (Hext x) in HP || apply (Hext x) in HQ; try done; by left.
Qed.

(** In a list of distinct titles every item is a first occurrence. *)
Lemma first_occurrences_after_distinct pre l :
  NoDup (title <$> l) →
  first_occurrences_after pre l = filter (λ it, title it ∉ title <$> pre) l.
Proof.
  revert pre. induction l as [|x l IH]; intros pre Hnd; [done|].
  rewrite fmap_cons in Hnd. apply NoDup_cons in Hnd as [Hx Hnd].
  rewrite first_occurrences_after_cons, filter_cons, IH by done.
  rewrite (filter_ext_in (λ it, title it ∉ title <$> pre ++ [x])
             (λ it, title it ∉ title <$> pre) l).
  - destruct (decide (title x ∈ title <$> pre)) as [Hin|Hnotin].
    + rewrite bool_decide_eq_true_2 by done.
      by rewrite decide_False by auto.
    + rewrite bool_decide_eq_false_2 by done.
      by rewrite decide_True by done.
  - intros it Hit. rewrite fmap_app, elem_of_app. simpl.
    rewrite list_elem_of_singleton. split; [tauto|].
    intros Hnew [Hold|Heq]; [done|].
    apply Hx. rewrite <-Heq. by apply list_elem_of_fmap_2.
Qed.

(** X9. One refresh: fetch, merge, save.  The thread always posts one event.
    When the storage works and no insert is rejected by the primary key, it
    appends the rows of exactly the fetched items whose title was not
    stored, in fetched order, and posts their number; when every statement
    fails it posts the count 0; when the file cannot be opened and something
    was fetched it posts the error, and in both cases the storage is as it
    was. *)
Theorem fetch_news_thread_saves_new_titles
    (lower : string → string) (hash : string → Z)
    (fromisoformat strptime_gmt : string → option Z) (time_s now : nat → Z)
    (response : option (list article)) (read : feed_info → option (list entry))
    (feeds : list feed_info) (tick : nat) (db : database) (show_notification : bool) :
  let fetched :=
    (fetch_all_news_on lower hash fromisoformat strptime_gmt time_s now
       response read feeds tick).1 in
  let run := λ env,
    (_fetch_news_thread lower hash fromisoformat strptime_gmt time_s now
       response read feeds tick env db show_notification).1 in
  let new := filter (λ it, title it ∉ row_title <$> news_items db) fetched in
  (no_id_clash db fetched →
     run Ready =
       (NewsRefreshEvent (length new) show_notification,
        {| news_items := news_items db ++ (row_of_item <$> new);
           settings := settings db |})) ∧
  run Failing = (NewsRefreshEvent 0 show_notification, db) ∧
  (fetched ≠ [] → run Unopenable = (NewsRefreshErrorEvent UnboundLocalError, db)).
Proof.
  intros fetched run new. subst fetched run new. unfold _fetch_news_thread.
  assert (NoDup (title <$>
            (fetch_all_news_on lower hash fromisoformat strptime_gmt time_s now
               response read feeds tick).1)) as Hnd.
  { unfold fetch_all_news_on.
    destruct (fetch_from_newsapi_on _ _ _ _ _ _) as [a t1].
    destruct (fetch_from_rss_on _ _ _ _ _ _ _) as [b t2]. simpl.
    unfold merge_and_dedup. rewrite dedup_by_title_first_occurrences.
    apply first_occurrences_after_NoDup. }
  destruct (fetch_all_news_on _ _ _ _ _ _ _ _ _ _) as [batch tick'].
  cbn [fst] in *.
  split; [|split].
  - intros [Hids Hpair].
    assert (first_occurrences_after (item_of_row <$> news_items db) batch =
              filter (λ it, title it ∉ row_title <$> news_items db) batch) as Hnew.
    { rewrite first_occurrences_after_distinct by done.
      apply list_filter_iff. intros it. by rewrite <-list_fmap_compose. }
    destruct batch as [|item items].
    + simpl. destruct db. by rewrite app_nil_r.
    + unfold save_news_items.
      rewrite (save_loop_first_occurrences _ _ _ (item_of_row <$> news_items db));
        [| | |done].
      * by rewrite Hnew.
      * intros t. by rewrite <-list_fmap_compose.
      * intros it Hit Hfresh. apply Hids; [done|].
        by rewrite <-list_fmap_compose in Hfresh.
  - by destruct batch.
  - intros Hne. by destruct batch.
Qed.

(** Two sources return an item titled "X", the feed's being the later one:
    one row is stored, with the link and source of the feed's item. *)
Lemma fetch_news_thread_saves_new_titles_witness :
  let db := {| news_items := []; settings := ∅ |} in
  let response := Some [mkArticle "api" "Api" "X" "http://early" "d"] in
  let read := λ _ : feed_info, Some [mkEntry "X" "http://late" "d"] in
  let result :=
    (_fetch_news_thread Str.lower_ascii_string (λ _, 0%Z) (λ _, Some 1%Z)
       (λ _, Some 3%Z) (λ n, Z.of_nat n) (λ _, 0%Z)
       response read [mkFeed "Feed" "http://feed" "AI"] 0 Ready db true).1 in
  result.1 = NewsRefreshEvent 1 true ∧
  (λ row, (row_title row, row_link row, row_source row)) <$> news_items result.2 =
    [("X", "http://late", "Feed")].
Proof.
  intros db response read result. subst result.
  destruct (fetch_news_thread_saves_new_titles Str.lower_ascii_string (λ _, 0%Z)
              (λ _, Some 1%Z) (λ _, Some 3%Z) (λ n, Z.of_nat n) (λ _, 0%Z)
              response read [mkFeed "Feed" "http://feed" "AI"] 0 db true)
    as (Hready & _ & _).
  rewrite Hready.
  - split; by vm_compute.
  - assert ((fetch_all_news_on Str.lower_ascii_string (λ _, 0%Z) (λ _, Some 1%Z)
               (λ _, Some 3%Z) (λ n, Z.of_nat n) (λ _, 0%Z)
               response read [mkFeed "Feed" "http://feed" "AI"] 0).1 =
            [mkNewsItem "Feed_1_0" "X" "http://late" "Feed" 3 "AI" false]) as ->
      by (vm_compute; reflexivity).
    split.
    + intros item _ _ Hid. simpl in Hid. by apply elem_of_nil in Hid.
    + intros a b ->%list_elem_of_singleton ->%list_elem_of_singleton _.
      reflexivity.
Defined.

(** ** Notification batches, continued *)

Section NotifyMoreFacts.
Context {D : Type} (delay : D) (started : nat → bool).

Lemma notify_loop_unavailable total i items success_count m :
  available m = false →
  notify_loop total delay started i items success_count m =
    (success_count, m, NotShown <$> items).
Proof.
  intros Hoff. revert i.
  induction items as [|item items IH]; intros i; simpl; [done|].
  unfold show_news_notification. rewrite Hoff. simpl. by rewrite IH.
Qed.

Lemma started_items_length i items :
  (length (started_items started i items) ≤ length items)%nat.
Proof.
  revert i. induction items as [|item items IH]; intros i; simpl; [done|].
  rewrite length_app. specialize (IH (S i)). destruct (started i); simpl; lia.
Qed.

(** With notifications available: the count, the manager and the toasts. *)
Lemma notify_loop_available total i items success_count m :
  available m = true →
  let result := notify_loop total delay started i items success_count m in
  result.1.1 = success_count + length (started_items started i items) ∧
  result.1.2 = {| available := true;
                  active_notifications :=
                    register_all items (active_notifications m) |} ∧
  filter is_toast result.2 = toast_of <$> started_items started i items.
Proof.
  revert i success_count m.
  induction items as [|item items IH]; intros i success_count m Hon; simpl.
  - rewrite Nat.add_0_r. destruct m. simpl in Hon. by subst.
  - unfold show_news_notification. rewrite Hon. simpl.
    set (m' := {| available := true;
                  active_notifications :=
                    <[id item := (link item, id item)]> (active_notifications m) |}).
    destruct (started i).
    + destruct (IH (S i) (S success_count) m' eq_refl) as (Hn & Hm & Ht).
      destruct (notify_loop _ _ _ _ _ _ _) as [[n m2] trace]. simpl in *.
      split; [lia|]. split; [done|].
      rewrite filter_cons_True by done. f_equal.
      rewrite filter_app, Ht.
      case_bool_decide; [by rewrite filter_cons_False by auto|done].
    + destruct (IH (S i) success_count m' eq_refl) as (Hn & Hm & Ht).
      destruct (notify_loop _ _ _ _ _ _ _) as [[n m2] trace]. simpl in *.
      split; [lia|]. split; [done|].
      by rewrite filter_cons_False by auto.
Qed.

Lemma notify_loop_sleeps total i items success_count m :
  (success_count + length items ≤ total)%nat →
  let result := notify_loop total delay started i items success_count m in
  (success_count ≤ result.1.1 ≤ success_count + length items)%nat ∧
  length (filter is_sleep result.2) =
    if bool_decide (result.1.1 = total)
    then result.1.1 - success_count - 1
    else result.1.1 - success_count.
Proof.
  revert i success_count m.
  induction items as [|item items IH]; intros i success_count m Hle; simpl.
  - split; [lia|]. case_bool_decide; lia.
  - simpl in Hle.
    assert (∀ ok m' (shown : list (event D)),
              show_news_notification (started i) m item = (ok, m', shown) →
              filter is_sleep shown = []) as Hshown.
    { unfold show_news_notification. intros ok m' shown.
      destruct (negb (available m)), (started i); intros [= <- <- <-];
        by rewrite filter_cons_False by auto. }
    destruct (show_news_notification (started i) m item) as [[ok m'] shown] eqn:Hs.
    specialize (Hshown _ _ _ eq_refl).
    destruct ok.
    + destruct (IH (S i) (S success_count) m' ltac:(lia)) as [Hn Hsl].
      destruct (notify_loop _ _ _ _ _ _ _) as [[n m2] trace]. simpl in *.
      split; [lia|].
      rewrite !filter_app, !length_app, Hshown, Hsl. simpl.
      repeat case_bool_decide; simpl; try rewrite filter_cons_True by done;
        simpl; lia.
    + destruct (IH (S i) success_count m' ltac:(lia)) as [Hn Hsl].
      destruct (notify_loop _ _ _ _ _ _ _) as [[n m2] trace]. simpl in *.
      split; [lia|].
      by rewrite filter_app, length_app, Hshown, Hsl.
Qed.
End NotifyMoreFacts.

Lemma register_all_cons item items active :
  register_all (item :: items) active =
    register_all items (<[id item := (link item, id item)]> active).
Proof. done. Qed.

Lemma register_all_lookup_other items active k :
  k ∉ id <$> items → register_all items active !! k = active !! k.
Proof.
  revert active. induction items as [|item items IH]; intros active Hk; [done|].
  rewrite fmap_cons, not_elem_of_cons in Hk. destruct Hk as [Hne Hk].
  rewrite register_all_cons, IH by done. by rewrite lookup_insert_ne.
Qed.

Lemma register_all_lookup_is_Some items active k :
  is_Some (active !! k) ∨ k ∈ id <$> items → is_Some (register_all items active !! k).
Proof.
  revert active. induction items as [|item items IH]; intros active.
  - intros [?|[]%elem_of_nil]. done.
  - intros Hk. rewrite register_all_cons.
    apply IH. destruct (decide (id item = k)) as [<-|Hne].
    + left. by rewrite lookup_insert_eq.
    + rewrite lookup_insert_ne by done.
      destruct Hk as [?|[?|?]%elem_of_cons]; [by left|congruence|by right].
Qed.

(** X10. [show_multiple_news_notifications] returns the number of toasts it
    raised: with notifications available, the toasts are those of the items
    whose thread started, in input order, and the count is their number;
    with notifications unavailable it returns 0, raises no toast, does not
    sleep and leaves the manager as it was. *)
Theorem show_multiple_count_and_toasts {D : Type} (delay : D) (started : nat → bool)
    (m : manager) (news_items : list NewsItem) :
  let result := show_multiple_news_notifications started m news_items delay in
  (available m = true →
     result.1.1 = length (started_items started 0 news_items) ∧
     filter is_toast result.2 = toast_of <$> started_items started 0 news_items) ∧
  (available m = false → result = (0, m, NotShown <$> news_items)).
Proof.
  intros result. subst result. destruct news_items as [|item items].
  { split; [by intros _|done]. }
  unfold show_multiple_news_notifications. split.
  - intros Hon.
    destruct (notify_loop_available delay started (length (item :: items)) 0
                (item :: items) 0 m Hon) as (Hn & _ & Ht).
    split; [by rewrite Hn|done].
  - intros Hoff. by rewrite notify_loop_unavailable.
Qed.

Lemma show_multiple_count_and_toasts_witness :
  let on := {| available := true; active_notifications := ∅ |} in
  let off := {| available := false; active_notifications := ∅ |} in
  let a := mkNewsItem "s_1_1" "A" "http://a" "s" 1 "AI" false in
  let b := mkNewsItem "s_1_2" "B" "http://b" "s" 2 "科技" false in
  let started := λ i : nat, bool_decide (i = 1) in
  (show_multiple_news_notifications started on [a; b] tt).1.1 = 1 ∧
  filter is_toast (show_multiple_news_notifications started on [a; b] tt).2 =
    [Toast "s - 科技" "B"] ∧
  show_multiple_news_notifications started off [a; b] tt =
    (0, off, [NotShown a; NotShown b]).
Proof.
  intros on off a b started.
  destruct (show_multiple_count_and_toasts tt started on [a; b]) as [Hon _].
  destruct (show_multiple_count_and_toasts tt started off [a; b]) as [_ Hoff].
  destruct (Hon eq_refl) as [Hn Ht].
  split; [exact Hn|]. split; [exact Ht|]. exact (Hoff eq_refl).
Defined.

(** X11. The sleeps of a batch: one after every toast raised, except that
    there is none after the last toast when every item of the batch was
    shown. *)
Theorem show_multiple_sleeps {D : Type} (delay : D) (started : nat → bool)
    (m : manager) (news_items : list NewsItem) :
  let result := show_multiple_news_notifications started m news_items delay in
  length (filter is_sleep result.2) =
    if bool_decide (result.1.1 = length news_items)
    then result.1.1 - 1
    else result.1.1.
Proof.
  intros result. subst result. destruct news_items as [|item items]; [done|].
  unfold show_multiple_news_notifications.
  destruct (notify_loop_sleeps delay started (length (item :: items)) 0
              (item :: items) 0 m (le_n _)) as [_ Hsl].
  rewrite Hsl. case_bool_decide; lia.
Qed.

(** X12. With notifications available, a batch registers the callback of
    every item under the item's id, whether or not its toast could be
    started, and touches no other entry of the registry. *)
Theorem show_multiple_registers {D : Type} (delay : D) (started : nat → bool)
    (m : manager) (news_items : list NewsItem) :
  available m = true →
  let m' := (show_multiple_news_notifications started m news_items delay).1.2 in
  active_notifications m' = register_all news_items (active_notifications m) ∧
  (∀ item, item ∈ news_items → is_Some (active_notifications m' !! id item)) ∧
  (∀ k, k ∉ id <$> news_items →
     active_notifications m' !! k = active_notifications m !! k).
Proof.
  intros Hon m'.
  assert (active_notifications m' =
            register_all news_items (active_notifications m)) as Hreg.
  { subst m'. destruct news_items as [|item items]; [done|].
    unfold show_multiple_news_notifications.
    destruct (notify_loop_available delay started (length (item :: items)) 0
                (item :: items) 0 m Hon) as (_ & -> & _).
    done. }
  split; [done|]. rewrite Hreg. split.
  - intros item Hitem. apply register_all_lookup_is_Some. right.
    by apply list_elem_of_fmap_2.
  - intros k Hk. by apply register_all_lookup_other.
Qed.

Lemma show_multiple_registers_witness :
  let m := {| available := true; active_notifications := ∅ |} in
  let a := mkNewsItem "s_1_1" "A" "http://a" "s" 1 "AI" false in
  is_Some (active_notifications
             (show_multiple_news_notifications (λ _, false) m [a] tt).1.2 !! "s_1_1").
Proof.
  intros m a.
  destruct (show_multiple_registers tt (λ _, false) m [a] eq_refl) as (_ & Hin & _).
  apply (Hin a). by left.
Defined.

(** X13. Clicking a notification opens the item's link and removes its
    callback: after an item that was not registered is shown and clicked, the
    manager is as it was before.  When the browser cannot be opened the
    callback stays registered. *)
Theorem click_after_show {D : Type} (m : manager) (news_item : NewsItem) :
  available m = true →
  active_notifications m !! id news_item = None →
  let shown := show_news_notification (D := D) true m news_item in
  shown.1.1 = true ∧
  _on_notification_clicked true shown.1.2 (link news_item) (id news_item) =
    (m, Some (link news_item)) ∧
  _on_notification_clicked false shown.1.2 (link news_item) (id news_item) =
    (shown.1.2, None) ∧
  active_notifications shown.1.2 !! id news_item =
    Some (link news_item, id news_item).
Proof.
  intros Hon Hnew shown. subst shown. unfold show_news_notification.
  rewrite Hon. simpl. split; [done|]. split; [|split; [done|]].
  - unfold _on_notification_clicked. simpl.
    rewrite delete_insert_id by done. destruct m. simpl in *. by subst.
  - by rewrite lookup_insert_eq.
Qed.

Lemma click_after_show_witness :
  let m := {| available := true;
              active_notifications := {[ "other" := ("http://o", "other") ]} |} in
  let a := mkNewsItem "s_1_1" "A" "http://a" "s" 1 "AI" false in
  _on_notification_clicked true (show_news_notification (D := unit) true m a).1.2
    "http://a" "s_1_1" = (m, Some "http://a").
Proof.
  intros m a.
  destruct (click_after_show (D := unit) m a eq_refl) as (_ & Hclick & _).
  - by vm_compute.
  - exact Hclick.
Defined.

(** X14. [show_notifications] raises at most three toasts, those of the
    first three items whose thread started, and does nothing at all when
    notifications are disabled in the settings or there is no item. *)
Theorem show_notifications_at_most_three {D : Type} (default_delay : D)
    (notification_enabled : bool) (started : nat → bool) (m : manager)
    (news_items : list NewsItem) :
  let result :=
    show_notifications notification_enabled started m news_items default_delay in
  (length (filter is_toast result.2) ≤ 3)%nat ∧
  (notification_enabled = false ∨ news_items = [] → result = (m, [])) ∧
  (notification_enabled = true → available m = true →
     filter is_toast result.2 =
       toast_of <$> started_items started 0 (take 3 news_items)).
Proof.
  intros result. subst result. unfold show_notifications.
  destruct notification_enabled; simpl; [|split; [simpl; lia|by split]].
  case_bool_decide as Hempty; simpl.
  { split; [lia|]. split; [done|]. intros _ _. by rewrite Hempty. }
  pose proof (show_multiple_count_and_toasts default_delay started m
                (take 3 news_items)) as [Hon Hoff].
  destruct (show_multiple_news_notifications started m (take 3 news_items)
              default_delay) as [[n m'] trace] eqn:Hshow.
  simpl in *.
  split; [|split; [by intros [?|?]|by intros _ [_ ?]%Hon]].
  destruct (available m) eqn:Hav.
  - destruct (Hon eq_refl) as [_ ->]. rewrite length_fmap.
    etrans; [apply started_items_length|]. rewrite length_take. lia.
  - specialize (Hoff eq_refl). injection Hoff as _ _ ->.
    clear. induction (take 3 news_items) as [|x l IH]; simpl; [lia|].
    by rewrite filter_cons_False by auto.
Qed.

Lemma show_notifications_at_most_three_witness :
  let m := {| available := true; active_notifications := ∅ |} in
  let item := λ t, mkNewsItem ("s_1_" +:+ t) t "http://x" "s" 1 "AI" false in
  show_notifications false (λ _, true) m [item "A"] tt = (m, []) ∧
  filter is_toast
    (show_notifications true (λ _, true) m
       [item "A"; item "B"; item "C"; item "D"] tt).2 =
    [Toast "s - AI" "A"; Toast "s - AI" "B"; Toast "s - AI" "C"].
Proof.
  intros m item.
  destruct (show_notifications_at_most_three tt false (λ _, true) m [item "A"])
    as (_ & Hoff & _).
  destruct (show_notifications_at_most_three tt true (λ _, true) m
              [item "A"; item "B"; item "C"; item "D"]) as (_ & _ & Hon).
  split; [apply Hoff; by left|].
  rewrite Hon by done. by vm_compute.
Defined.

(** ** The window's settings and lists *)

Lemma save_setting_ready_shaped db key value :
  json_shaped value = true →
  ∃ doc, json_loads doc = value ∧
    save_setting Ready db key value =
      (Return true,
       {| news_items := news_items db;
          settings := <[key := Json doc]> (settings db) |}).
Proof.
  intros (doc & Hdoc & Hloads)%json_round_trip. exists doc. split; [done|].
  unfold save_setting. rewrite Hdoc. by destruct (settings db !! key).
Qed.

(** X15. The settings survive a save and a load: when the four values are
    JSON-shaped, [save_settings] returns without raising, leaves the news
    rows alone, and a following [load_settings] yields the four values
    saved (and hides the window exactly when [start_minimized] is true).
    On Windows with a working registry the autostart entry is present
    afterwards exactly when [auto_start] is true. *)
Theorem save_then_load_settings (db : database) (s : app_settings)
    (win32 registry_ok : bool) (app_path : string) (run_key : gmap string string) :
  json_shaped (notification_enabled s) = true →
  json_shaped (refresh_interval s) = true →
  json_shaped (auto_start s) = true →
  json_shaped (start_minimized s) = true →
  let saved := save_settings Ready db s win32 registry_ok app_path run_key in
  saved.1.1 = Return tt ∧
  news_items saved.1.2 = news_items db ∧
  load_settings Ready saved.1.2 = Return (s, truthy (start_minimized s)) ∧
  (win32 = true → registry_ok = true →
     saved.2 !! "AINewsNotifier" =
       if truthy (auto_start s) then Some app_path else None).
Proof.
  intros Hne Hri Hau Hsm saved. subst saved. unfold save_settings, then_save.
  destruct (save_setting_ready_shaped db "notification_enabled" _ Hne)
    as (d1 & Hd1 & ->).
  destruct (save_setting_ready_shaped
              {| news_items := news_items db;
                 settings := <["notification_enabled" := Json d1]> (settings db) |}
              "refresh_interval" _ Hri) as (d2 & Hd2 & ->).
  cbn [news_items settings].
  destruct (save_setting_ready_shaped
              {| news_items := news_items db;
                 settings := <["refresh_interval" := Json d2]>
                               (<["notification_enabled" := Json d1]> (settings db)) |}
              "auto_start" _ Hau) as (d3 & Hd3 & ->).
  cbn [news_items settings].
  destruct (save_setting_ready_shaped
              {| news_items := news_items db;
                 settings := <["auto_start" := Json d3]>
                               (<["refresh_interval" := Json d2]>
                                  (<["notification_enabled" := Json d1]> (settings db))) |}
              "start_minimized" _ Hsm) as (d4 & Hd4 & ->).
  cbn [news_items settings fst snd].
  split; [done|]. split; [done|]. split.
  - unfold load_settings, get_setting. simpl.
    rewrite lookup_insert_ne, lookup_insert_ne, lookup_insert_ne,
      lookup_insert_eq by done. simpl.
    rewrite lookup_insert_ne, lookup_insert_ne, lookup_insert_eq by done. simpl.
    rewrite lookup_insert_ne, lookup_insert_eq by done. simpl.
    rewrite lookup_insert_eq. simpl.
    rewrite Hd1, Hd2, Hd3, Hd4. by destruct s.
  - intros -> ->. unfold set_auto_start.
    destruct (truthy (auto_start s)).
    + by rewrite lookup_insert_eq.
    + by rewrite lookup_delete_eq.
Qed.

Lemma save_then_load_settings_witness :
  let db := {| news_items := [mkRow "s_1_1" "A" "http://a" "s" 1 "AI" 0];
               settings := {[ "refresh_interval" := Json (JInt 15) ]} |} in
  let s := mkAppSettings (PyBool false) (PyInt 30) (PyBool true) (PyBool false) in
  let saved := save_settings Ready db s true true "C:\app.exe" ∅ in
  load_settings Ready saved.1.2 = Return (s, false) ∧
  saved.2 !! "AINewsNotifier" = Some "C:\app.exe".
Proof.
  intros db s saved. subst saved.
  destruct (save_then_load_settings db s true true "C:\app.exe" ∅
              eq_refl eq_refl eq_refl eq_refl) as (_ & _ & Hload & Hreg).
  split; [exact Hload|]. exact (Hreg eq_refl eq_refl).
Defined.

(** On a storage that holds none of the four keys, [load_settings]
    yields the defaults: notifications enabled, a refresh interval of 15,
    no autostart, start minimized (so the window is hidden); and it yields
    them too when every query fails. *)
Theorem load_settings_defaults (db : database) :
  let defaults :=
    (mkAppSettings (PyBool true) (PyInt 15) (PyBool false) (PyBool true), true) in
  (settings db !! "notification_enabled" = None →
   settings db !! "refresh_interval" = None →
   settings db !! "auto_start" = None →
   settings db !! "start_minimized" = None →
   load_settings Ready db = Return defaults) ∧
  load_settings Failing db = Return defaults.
Proof.
  split; [|done]. intros H1 H2 H3 H4.
  unfold load_settings, get_setting. simpl. by rewrite H1, H2, H3, H4.
Qed.

Lemma load_settings_defaults_witness :
  load_settings Ready
    {| news_items := []; settings := {[ "other" := Json (JInt 1) ]} |} =
  Return (mkAppSettings (PyBool true) (PyInt 15) (PyBool false) (PyBool true), true).
Proof.
  apply (proj1 (load_settings_defaults
                  {| news_items := []; settings := {[ "other" := Json (JInt 1) ]} |}));
    by vm_compute.
Defined.

(** X16. The two lists of the window: the history list holds at most 100
    items, newest first, and the latest list is its first 20. *)
Theorem update_news_lists_prefix (db : database) :
  ∃ latest_news all_news,
    update_news_lists Ready db = Return (latest_news, all_news) ∧
    latest_news = take 20 all_news ∧
    (length all_news ≤ 100)%nat ∧
    StronglySorted (λ a b, (published_time b ≤ published_time a)%Z) all_news.
Proof.
  eexists _, _. split; [reflexivity|].
  unfold take_limit. simpl.
  split; [by rewrite <-fmap_take, take_take|].
  split; [rewrite length_fmap, length_take; lia|].
  assert (∀ rows,
    StronglySorted (λ a b, (row_published_time b ≤ row_published_time a)%Z) rows →
    StronglySorted (λ a b, (published_time b ≤ published_time a)%Z)
      (item_of_row <$> rows)) as Hmap.
  { induction 1 as [|row rows _ IH Hrow]; simpl; constructor; [done|].
    apply Forall_fmap. eapply Forall_impl; [exact Hrow|]. done. }
  apply Hmap.
  apply (StronglySorted_app_1_l _ _
           (drop (Z.to_nat 100) (sort_desc row_published_time (news_items db)))).
  rewrite take_drop. apply sort_desc_sorted.
Qed.
